(** * Configuration assembly of the IRC server (irc/config.go)

    A shallow embedding of the operator-class resolver [OperatorClasses], the
    operator binder [Operators] and the logging part of [LoadConfig], with the
    properties of these functions that the specification states.

    Go maps are finite maps ([gmap]); a [range] over a Go map enumerates its
    entries in an unspecified order, which is modelled by an explicit list of
    the entries that is a permutation of the map. Go errors carry a message
    only and are modelled by that message. *)

From Stdlib Require Import Ascii String ZArith DecimalString.
From stdpp Require Import base tactics option list relations sets gmap fin_maps strings.



(** ** Results of a Go call *)

(** A call returns a value, returns an [error] with a message, panics at run
    time (index out of range), or ends the process through [log.Fatal]. *)
Inductive outcome (A : Type) : Type :=
  | Ok (a : A)
  | Err (msg : string)
  | Panic
  | Fatal.
Arguments Ok {A} a.
Arguments Err {A} msg.
Arguments Panic {A}.
Arguments Fatal {A}.

Definition obind {A B} (x : outcome A) (f : A → outcome B) : outcome B :=
  match x with
  | Ok a => f a
  | Err msg => Err msg
  | Panic => Panic
  | Fatal => Fatal
  end.

Notation "x ←! y ; z" := (obind y (λ x, z))
  (at level 20, y at level 100, z at level 200, right associativity,
   format "x  ←!  y ;  '/' z").

(** A loop [for _, x := range xs { body }] whose body may return early. *)
Fixpoint forRange {A S} (body : A → S → outcome S) (xs : list A) (st : S)
  : outcome S :=
  match xs with
  | [] => Ok st
  | x :: xs' => st' ←! body x st; forRange body xs' st'
  end.

(** ** Strings of the Go runtime and of package [strings] *)

(** [len(s) > 0] *)
Definition nonempty (s : string) : bool := negb (String.eqb s "").

(** [s[0]]: the first byte, out of range on the empty string. *)
Definition index0 (s : string) : option ascii := String.get 0 s.

(** [string(b)] for a byte [b]: the UTF-8 encoding of the code point [b]. *)
Definition string_of_byte (b : ascii) : string :=
  let n := nat_of_ascii b in
  if Nat.ltb n 128 then String b ""
  else String (ascii_of_nat (192 + n / 64))
         (String (ascii_of_nat (128 + n mod 64)) "").

(** [strings.Contains(s, substr)] *)
Fixpoint strings_Contains (s substr : string) : bool :=
  String.prefix substr s
  || match s with
     | "" => false
     | String _ s' => strings_Contains s' substr
     end.

(** [strings.Split(s, sep)] for a separator of one byte. *)
Fixpoint strings_Split (s : string) (sep : ascii) : list string :=
  match s with
  | "" => [""]
  | String c s' =>
      if Ascii.eqb c sep then "" :: strings_Split s' sep
      else match strings_Split s' sep with
           | [] => [String c ""]
           | t :: ts => String c t :: ts
           end
  end.

(** [strings.ToLower] on strings of ASCII bytes: the letters A to Z are moved
    to a to z and every other byte is kept. The functions below take the
    lower-casing function as a parameter, this one instantiates it. *)
Definition asciiToLowerByte (c : ascii) : ascii :=
  let n := nat_of_ascii c in
  if Nat.leb 65 n && Nat.leb n 90 then ascii_of_nat (n + 32) else c.

Fixpoint asciiToLower (s : string) : string :=
  match s with
  | "" => ""
  | String c s' => String (asciiToLowerByte c) (asciiToLower s')
  end.

(** ** Operator classes *)

(** [OperClassConfig]: one operator class as written in the configuration. *)
Module OperClassConfig.
Record t : Type := mk {
  Title : string;
  WhoisLine : string;
  Extends : string;
  Capabilities : list string
}.
Global Instance eq_dec : EqDecision t.
Proof. solve_decision. Defined.
End OperClassConfig.

(** [OperClass]: an assembled operator class; [Capabilities] is a
    [map[string]bool]. *)
Module OperClass.
Record t : Type := mk {
  Title : string;
  WhoisLine : string;
  Capabilities : gmap string bool
}.
(** The zero value, which a lookup of an absent key returns. *)
Definition zero : t := mk "" "" ∅.
End OperClass.

Definition errLooping : string :=
  "OperClasses contains a looping dependency, or a class extends from a class that doesn't exist".

(** [fmt.Errorf("Operclass [%s] extends [%s], which doesn't exist", ...)] *)
Definition errMissingBase (name base : string) : string :=
  "Operclass [" +:+ name +:+ "] extends [" +:+ base +:+ "], which doesn't exist".

Section Resolver.

(** [strings.ToLower] of the Go library. *)
Variable ToLower : string → string.

(** [conf.OperClasses] *)
Variable OperClasses : gmap string OperClassConfig.t.

(** Lines 303 to 312: the whois line of a new class. *)
Definition whoisLine (info : OperClassConfig.t) : outcome string :=
  if nonempty (OperClassConfig.WhoisLine info) then
    Ok (OperClassConfig.WhoisLine info)
  else
    let w := "is a" in
    match index0 (OperClassConfig.Title info) with
    | None => Panic
    | Some b =>
        let w :=
          if strings_Contains (ToLower (string_of_byte b)) "aeiou"
          then w +:+ "n" else w in
        let w := w +:+ " " in
        Ok (w +:+ OperClassConfig.Title info)
    end.

(** Lines 293 to 295: every key of the extended class's capability map is
    entered with the value [true]. *)
Definition copyCaps (base : gmap string bool) : gmap string bool :=
  map_fold (λ capab _ caps, <[capab := true]> caps) ∅ base.

(** Lines 290 to 296: the capabilities inherited from the extended class. *)
Definition inherited (ocs : gmap string OperClass.t) (info : OperClassConfig.t)
  : gmap string bool :=
  if nonempty (OperClassConfig.Extends info) then
    let einfo := default OperClass.zero (ocs !! OperClassConfig.Extends info) in
    copyCaps (OperClass.Capabilities einfo)
  else ∅.

(** Lines 300 to 302: the class's own capabilities are added. *)
Definition addOwn (caps : gmap string bool) (own : list string)
  : gmap string bool :=
  foldl (λ caps capab, <[capab := true]> caps) caps own.

(** Lines 285 to 314: a new class is assembled and stored. *)
Definition assemble (ocs : gmap string OperClass.t) (name : string)
    (info : OperClassConfig.t) : outcome (gmap string OperClass.t) :=
  let caps := addOwn (inherited ocs info) (OperClassConfig.Capabilities info) in
  w ←! whoisLine info;
  Ok (<[name := OperClass.mk (OperClassConfig.Title info) w caps]> ocs).

(** Lines 270 to 314: the body of the inner loop, on the state
    [(ocs, anyMissing)]. *)
Definition visit (entry : string * OperClassConfig.t)
    (st : gmap string OperClass.t * bool)
  : outcome (gmap string OperClass.t * bool) :=
  let '(name, info) := entry in
  let '(ocs, anyMissing) := st in
  let exists_ := bool_decide (is_Some (ocs !! name)) in
  let extendsExists :=
    bool_decide (is_Some (ocs !! OperClassConfig.Extends info)) in
  if exists_ then Ok (ocs, anyMissing)
  else if nonempty (OperClassConfig.Extends info) && negb extendsExists then
    if bool_decide (is_Some (OperClasses !! OperClassConfig.Extends info))
    then Ok (ocs, true)
    else Err (errMissingBase name (OperClassConfig.Extends info))
  else
    ocs' ←! assemble ocs name info;
    Ok (ocs', anyMissing).

(** The order in which the [i]-th [range] over [conf.OperClasses]
    enumerates the map. *)
Variable order : nat → list (string * OperClassConfig.t).

(** Lines 262 to 321: the outer loop, entered for the [i]-th time; [None]
    when [fuel] iterations do not end it. *)
Fixpoint OperatorClasses_loop (fuel i : nat) (lenOfLastOcs : Z)
    (ocs : gmap string OperClass.t)
  : option (outcome (gmap string OperClass.t)) :=
  match fuel with
  | O => None
  | S fuel' =>
      if bool_decide (lenOfLastOcs = Z.of_nat (size ocs)) then
        Some (Err errLooping)
      else
        let lenOfLastOcs := Z.of_nat (size ocs) in
        match forRange visit (order i) (ocs, false) with
        | Ok (ocs', anyMissing) =>
            if negb anyMissing then Some (Ok ocs')
            else OperatorClasses_loop fuel' (S i) lenOfLastOcs ocs'
        | Err msg => Some (Err msg)
        | Panic => Some Panic
        | Fatal => Some Fatal
        end
  end.

(** [OperatorClasses]: the loop can be entered at most
    [size OperClasses + 2] times (see [OperatorClasses_loop_total]). *)
Definition OperatorClasses : option (outcome (gmap string OperClass.t)) :=
  OperatorClasses_loop (size OperClasses + 2) 0 (-1) ∅.

End Resolver.

(** ** The extends graph of a set of operator classes *)

Section Graph.

Variable ToLower : string → string.
Variable conf : gmap string OperClassConfig.t.

(** Class [a] extends class [b]. *)
Definition extends_of (a b : string) : Prop :=
  ∃ info, conf !! a = Some info ∧ OperClassConfig.Extends info = b ∧ b ≠ "".

(** A capability is granted by [name] or by a class that [name] reaches along
    extends edges. *)
Definition granted (name capab : string) : Prop :=
  ∃ a ainfo, rtc extends_of name a ∧ conf !! a = Some ainfo ∧
    capab ∈ OperClassConfig.Capabilities ainfo.

(** No class reaches itself along extends edges. *)
Definition acyclic : Prop := ∀ name, ¬ tc extends_of name name.

(** Every extended class is a class of the set. *)
Definition no_dangling : Prop :=
  map_Forall (λ _ info,
    OperClassConfig.Extends info ≠ "" →
    is_Some (conf !! OperClassConfig.Extends info)) conf.

(** The class [name] extends a class that is not in the set. *)
Definition dangling (name : string) (info : OperClassConfig.t) : Prop :=
  conf !! name = Some info ∧ OperClassConfig.Extends info ≠ "" ∧
  conf !! OperClassConfig.Extends info = None.

(** No class lacks both an explicit whois line and a title. *)
Definition titled : Prop :=
  map_Forall (λ _ info,
    OperClassConfig.WhoisLine info = "" → OperClassConfig.Title info ≠ "") conf.

(** Each [range] over the map enumerates every entry once. *)
Definition valid_order (order : nat → list (string * OperClassConfig.t)) : Prop :=
  ∀ i, order i ≡ₚ map_to_list conf.

(** The assembled class of [name], by descent along the extends chain. *)
Inductive resolves : string → OperClass.t → Prop :=
  | resolves_root name info w :
      conf !! name = Some info →
      OperClassConfig.Extends info = "" →
      whoisLine ToLower info = Ok w →
      resolves name
        (OperClass.mk (OperClassConfig.Title info) w
           (addOwn ∅ (OperClassConfig.Capabilities info)))
  | resolves_ext name info base w :
      conf !! name = Some info →
      OperClassConfig.Extends info ≠ "" →
      resolves (OperClassConfig.Extends info) base →
      whoisLine ToLower info = Ok w →
      resolves name
        (OperClass.mk (OperClassConfig.Title info) w
           (addOwn (copyCaps (OperClass.Capabilities base))
              (OperClassConfig.Capabilities info))).

(** Every stored class is the assembled class of its name. *)
Definition sound (ocs : gmap string OperClass.t) : Prop :=
  ∀ name oc, ocs !! name = Some oc → resolves name oc.

Variable order : nat → list (string * OperClassConfig.t).

(** The runs of the outer loop of [OperatorClasses], from its [i]-th entry. *)
Inductive run : nat → Z → gmap string OperClass.t →
    outcome (gmap string OperClass.t) → Prop :=
  | run_stuck i last ocs :
      last = Z.of_nat (size ocs) →
      run i last ocs (Err errLooping)
  | run_break i last ocs ocs' :
      last ≠ Z.of_nat (size ocs) →
      forRange (visit ToLower conf) (order i) (ocs, false) = Ok (ocs', false) →
      run i last ocs (Ok ocs')
  | run_again i last ocs ocs' r :
      last ≠ Z.of_nat (size ocs) →
      forRange (visit ToLower conf) (order i) (ocs, false) = Ok (ocs', true) →
      run (S i) (Z.of_nat (size ocs)) ocs' r →
      run i last ocs r
  | run_err i last ocs msg :
      last ≠ Z.of_nat (size ocs) →
      forRange (visit ToLower conf) (order i) (ocs, false) = Err msg →
      run i last ocs (Err msg)
  | run_panic i last ocs :
      last ≠ Z.of_nat (size ocs) →
      forRange (visit ToLower conf) (order i) (ocs, false) = Panic →
      run i last ocs Panic
  | run_fatal i last ocs :
      last ≠ Z.of_nat (size ocs) →
      forRange (visit ToLower conf) (order i) (ocs, false) = Fatal →
      run i last ocs Fatal.

End Graph.

Global Instance no_dangling_dec conf : Decision (no_dangling conf).
Proof. unfold no_dangling. apply _. Defined.

Global Instance titled_dec conf : Decision (titled conf).
Proof. unfold titled. apply _. Defined.

(** The enumeration of a map in the order of [map_to_list], at every pass. *)
Definition enumerate (conf : gmap string OperClassConfig.t)
  : nat → list (string * OperClassConfig.t) :=
  λ _, map_to_list conf.

(** The enumeration in the opposite order. *)
Definition enumerate_rev (conf : gmap string OperClassConfig.t)
  : nat → list (string * OperClassConfig.t) :=
  λ _, reverse (map_to_list conf).

(** *** Sets of operator classes used in the examples *)

(** Three classes in a chain: server-admin extends network-oper, which
    extends local-oper. *)
Definition ex_default : gmap string OperClassConfig.t :=
  {[ "local-oper" :=
       OperClassConfig.mk "Local Operator" "" ""
         ["oper:local_kill"; "oper:local_ban"; "oper:local_unban"];
     "network-oper" :=
       OperClassConfig.mk "Network Operator" "" "local-oper"
         ["oper:remote_kill"; "oper:remote_ban"; "oper:local_ban"];
     "server-admin" :=
       OperClassConfig.mk "Server Admin" "" "network-oper"
         ["oper:rehash"; "oper:die"] ]}.

Definition ex_default_rank (name : string) : nat :=
  if decide (name = "local-oper") then 0
  else if decide (name = "network-oper") then 1 else 2.

(** Two classes whose titles start with a vowel and with a consonant. *)
Definition ex_admin : gmap string OperClassConfig.t :=
  {[ "admin" := OperClassConfig.mk "Admin" "" "" ["oper:rehash"];
     "bot" := OperClassConfig.mk "Bot" "" "" [] ]}.

(** One class that has neither a title nor a whois line. *)
Definition ex_untitled : gmap string OperClassConfig.t :=
  {[ "staff" := OperClassConfig.mk "" "" "" ["oper:local_kill"] ]}.

(** Two classes that extend each other, and a third one. *)
Definition ex_mutual : gmap string OperClassConfig.t :=
  {[ "a" := OperClassConfig.mk "A" "" "b" ["x"];
     "b" := OperClassConfig.mk "B" "" "a" ["y"];
     "c" := OperClassConfig.mk "C" "" "" ["z"] ]}.

(** The same with a class that extends a class that is not there. *)
Definition ex_mutual_dangling : gmap string OperClassConfig.t :=
  <["d" := OperClassConfig.mk "D" "" "ghost" []]> ex_mutual.

(** A class without title and whois line next to a class with a dangling
    reference, and the two orders in which a pass can visit them. *)
Definition ex_helper : OperClassConfig.t := OperClassConfig.mk "" "" "" [].
Definition ex_oper : OperClassConfig.t :=
  OperClassConfig.mk "Operator" "" "ghost" [].

Definition ex_dangling_untitled : gmap string OperClassConfig.t :=
  {[ "helper" := ex_helper; "oper" := ex_oper ]}.

Definition ex_helper_first : nat → list (string * OperClassConfig.t) :=
  λ _, [("helper", ex_helper); ("oper", ex_oper)].

Definition ex_oper_first : nat → list (string * OperClassConfig.t) :=
  λ _, [("oper", ex_oper); ("helper", ex_helper)].

(** ** Operators *)

(** [OperConfig]: one operator as written in the configuration. *)
Module OperConfig.
Record t : Type := mk {
  Class : string;
  Vhost : string;
  WhoisLine : string;
  Password : string;
  Modes : string
}.
End OperConfig.

(** [Oper]: an assembled operator; [Class] points to a copy of the class. *)
Module Oper.
Record t : Type := mk {
  Class : OperClass.t;
  WhoisLine : string;
  Vhost : string;
  Pass : list ascii;
  Modes : string
}.
End Oper.

(** [fmt.Errorf("Could not casefold oper name: %s", err.Error())] *)
Definition errCasefold (err : string) : string :=
  "Could not casefold oper name: " +:+ err.

(** [fmt.Errorf("Could not load operator [%s] - they use operclass [%s] which
    does not exist", name, opConf.Class)] *)
Definition errUnknownClass (name class : string) : string :=
  "Could not load operator [" +:+ name +:+ "] - they use operclass ["
  +:+ class +:+ "] which does not exist".

Section Binder.

(** [CasefoldName] (irc/strings.go) and [DecodePasswordHash] (irc/passwd.go)
    return a value ([inl]) or an error ([inr], with its message);
    [strings.TrimSpace] is the Go library's. *)
Variable CasefoldName : string → string + string.
Variable DecodePasswordHash : string → list ascii + string.
Variable TrimSpace : string → string.

(** [PasswordBytes] of [OperConfig]: [log.Fatal] when the hash does not
    decode. *)
Definition PasswordBytes (conf : OperConfig.t) : outcome (list ascii) :=
  match DecodePasswordHash (OperConfig.Password conf) with
  | inl bytes => Ok bytes
  | inr _ => Fatal
  end.

(** Lines 339 to 362: the body of the loop of [Operators]. *)
Definition bindOper (oc : gmap string OperClass.t)
    (entry : string * OperConfig.t) (operators : gmap string Oper.t)
  : outcome (gmap string Oper.t) :=
  let '(name, opConf) := entry in
  match CasefoldName name with
  | inr err => Err (errCasefold err)
  | inl name =>
      pass ←! PasswordBytes opConf;
      match oc !! OperConfig.Class opConf with
      | None => Err (errUnknownClass name (OperConfig.Class opConf))
      | Some class =>
          let whois :=
            if nonempty (OperConfig.WhoisLine opConf)
            then OperConfig.WhoisLine opConf
            else OperClass.WhoisLine class in
          Ok (<[name := Oper.mk class whois (OperConfig.Vhost opConf) pass
                          (TrimSpace (OperConfig.Modes opConf))]> operators)
      end
  end.

(** [Operators], with the order in which [conf.Opers] is enumerated. *)
Definition Operators (order : list (string * OperConfig.t))
    (oc : gmap string OperClass.t) : outcome (gmap string Oper.t) :=
  forRange (bindOper oc) order ∅.

End Binder.

(** The whois line of a bound operator: its own when it has one, otherwise
    that of its class. *)
Definition whois_rule (opConf : OperConfig.t) (class : OperClass.t)
    (oper : Oper.t) : Prop :=
  Oper.Class oper = class ∧
  (OperConfig.WhoisLine opConf ≠ "" →
   Oper.WhoisLine oper = OperConfig.WhoisLine opConf) ∧
  (OperConfig.WhoisLine opConf = "" →
   Oper.WhoisLine oper = OperClass.WhoisLine class).

(** An entry binds: its name case-folds, its password hash decodes and its
    class is known. *)
Definition bindable (CasefoldName : string → string + string)
    (DecodePasswordHash : string → list ascii + string)
    (oc : gmap string OperClass.t) (entry : string * OperConfig.t) : Prop :=
  (∃ name', CasefoldName entry.1 = inl name') ∧
  (∃ pass, DecodePasswordHash (OperConfig.Password entry.2) = inl pass) ∧
  is_Some (oc !! OperConfig.Class entry.2).

(** *** Stand-ins for the functions that [Operators] calls *)

(** Modelled from the spec: [CasefoldName] is defined in irc/strings.go,
    which is not among the sources; the specification describes it as the
    case folding of identifiers that rejects invalid ones. This instance
    lower-cases ASCII names and rejects the empty name and names with a
    space. *)
Definition ex_CasefoldName (name : string) : string + string :=
  if nonempty name && negb (strings_Contains name " ")
  then inl (asciiToLower name)
  else inr "invalid identifier".

(** Modelled from the spec: [DecodePasswordHash] is defined outside the
    sources; the specification describes it as the decoding of the stored
    hash into bytes, which can fail. This instance fails on the empty string
    and returns the bytes of any other string. *)
Definition ex_DecodePasswordHash (encoded : string) : list ascii + string :=
  if nonempty encoded then inl (list_ascii_of_string encoded)
  else inr "empty password".

(** [strings.TrimSpace] on strings that hold no white space but spaces. *)
Fixpoint trimLeft (s : string) : string :=
  match s with
  | String c s' => if Ascii.eqb c " " then trimLeft s' else s
  | "" => ""
  end.

Definition ex_TrimSpace (s : string) : string :=
  String.rev (trimLeft (String.rev (trimLeft s))).

(** A resolved class, an operator of that class, one whose name does not
    case-fold and two whose classes do not exist. *)
Definition ex_class : OperClass.t :=
  OperClass.mk "Server Admin" "is a Server Admin" {[ "oper:rehash" := true ]}.

Definition ex_classes : gmap string OperClass.t :=
  {[ "server-admin" := ex_class ]}.

Definition ex_dan : string * OperConfig.t :=
  ("Dan", OperConfig.mk "server-admin" "n" "" "JDJh" " +is ").



Definition ex_bob : string * OperConfig.t :=
  ("bob", OperConfig.mk "y" "" "is bob" "JDJh" "").

(** ** Logging directives *)

(** [LoggingConfig]; [Level] is a [logger.Level], an integer. *)
Module LoggingConfig.
Record t : Type := mk {
  Method : string;
  MethodStdout : bool;
  MethodStderr : bool;
  MethodFile : bool;
  Filename : string;
  TypeString : string;
  Types : list string;
  ExcludedTypes : list string;
  LevelString : string;
  Level : Z
}.
End LoggingConfig.

Definition errFileNoFilename : string :=
  "Logging configuration specifies 'file' method but 'filename' is empty".

(** [fmt.Errorf("Could not translate log leve [%s]", logConfig.LevelString)] *)
Definition errLevel (level : string) : string :=
  "Could not translate log leve [" +:+ level +:+ "]".

Definition errBareExclusion : string :=
  "Encountered logging type '-' with no type to exclude".

Definition errNoTypes : string := "Logger has no types to log".

(** [s[1:]] *)
Definition slice1 (s : string) : option string :=
  match s with
  | "" => None
  | String _ s' => Some s'
  end.

Section Logging.

(** [strings.ToLower] of the Go library and the table
    [logger.LogLevelNames] (irc/logger). *)
Variable ToLower : string → string.
Variable LogLevelNames : gmap string Z.

(** Lines 451 to 456: the set of method tokens. *)
Definition parseMethods (method : string) : gmap string bool :=
  foldl (λ methods method,
           if nonempty method then <[ToLower method := true]> methods
           else methods)
    ∅ (strings_Split method " ").

(** [methods[name]]: [false] for an absent key. *)
Definition hasMethod (methods : gmap string bool) (name : string) : bool :=
  default false (methods !! name).

(** Lines 473 to 484: the body of the loop over the type tokens, on the
    state [(logConfig.Types, logConfig.ExcludedTypes)]. *)
Definition parseType (typeStr : string) (st : list string * list string)
  : outcome (list string * list string) :=
  let '(types, excluded) := st in
  if negb (nonempty typeStr) then Ok (types, excluded)
  else if String.eqb typeStr "-" then Err errBareExclusion
  else
    match index0 typeStr, slice1 typeStr with
    | Some b, Some rest =>
        if Ascii.eqb b "-" then Ok (types, (excluded ++ [rest])%list)
        else Ok ((types ++ [typeStr])%list, excluded)
    | _, _ => Panic
    end.

(** Lines 450 to 488: the body of the loop over [config.Logging]. *)
Definition normalizeLogConfig (logConfig : LoggingConfig.t)
  : outcome LoggingConfig.t :=
  let methods := parseMethods (LoggingConfig.Method logConfig) in
  if hasMethod methods "file" && String.eqb (LoggingConfig.Filename logConfig) ""
  then Err errFileNoFilename
  else
    match LogLevelNames !! ToLower (LoggingConfig.LevelString logConfig) with
    | None => Err (errLevel (LoggingConfig.LevelString logConfig))
    | Some level =>
        st ←! forRange parseType
                (strings_Split (LoggingConfig.TypeString logConfig) " ")
                (LoggingConfig.Types logConfig,
                 LoggingConfig.ExcludedTypes logConfig);
        if Nat.ltb (length st.1) 1 then Err errNoTypes
        else
          Ok (LoggingConfig.mk
                (LoggingConfig.Method logConfig)
                (hasMethod methods "stdout")
                (hasMethod methods "stderr")
                (hasMethod methods "file")
                (LoggingConfig.Filename logConfig)
                (LoggingConfig.TypeString logConfig)
                st.1 st.2
                (LoggingConfig.LevelString logConfig)
                level)
    end.

(** Lines 448 to 492 of [LoadConfig]: the loop over [config.Logging]. *)
Definition normalizeLogging (logging : list LoggingConfig.t)
  : outcome (list LoggingConfig.t) :=
  forRange (λ logConfig newLogConfigs,
              logConfig' ←! normalizeLogConfig logConfig;
              Ok ((newLogConfigs ++ [logConfig'])%list))
    logging [].

End Logging.

(** The method string has a token that lower-cases to [name]. *)
Definition methodToken (ToLower : string → string)
    (logConfig : LoggingConfig.t) (name : string) : Prop :=
  ∃ tok, tok ∈ strings_Split (LoggingConfig.Method logConfig) " " ∧
    tok ≠ "" ∧ ToLower tok = name.

(** A type token that names an included type: it is not empty and does not
    start with a minus sign. *)
Definition includedType (typeStr : string) : bool :=
  match typeStr with
  | String c _ => negb (Ascii.eqb c "-")
  | "" => false
  end.

(** The type that a token excludes: what follows its leading minus sign. *)
Definition excludedType (typeStr : string) : option string :=
  match typeStr with
  | String c rest => if Ascii.eqb c "-" then Some rest else None
  | "" => None
  end.

(** Modelled from the spec: [logger.LogLevelNames] is defined in irc/logger,
    which is not among the sources; the specification describes it as a
    fixed table from level names to levels. This instance serves the
    examples. *)
Definition ex_LogLevelNames : gmap string Z :=
  {[ "debug" := 0%Z; "info" := 1%Z; "warn" := 2%Z; "warning" := 2%Z;
     "error" := 3%Z ]}.

(** A raw directive: the fields that normalization fills are unset. *)
Definition rawLogConfig (method filename type level : string)
  : LoggingConfig.t :=
  LoggingConfig.mk method false false false filename type [] [] level 0.

(** A method token that sets one of the three sink flags. *)
Definition recognized (ToLower : string → string) (method : string) : Prop :=
  method ≠ "" ∧
  (ToLower method = "file" ∨ ToLower method = "stdout" ∨
   ToLower method = "stderr").

(** ** Client-only message tags (irc/message_tags.go) *)

Section ClientOnlyTags.

(** [ircmsg.TagValue] of the library irc-go. *)
Variable TagValue : Type.

(** [len(name) > 1 && name[0] == '+']; the index is evaluated only when the
    length test holds. *)
Definition isClientOnly (name : string) : outcome bool :=
  if Nat.ltb 1 (String.length name) then
    match index0 name with
    | Some b => Ok (Ascii.eqb b "+")
    | None => Panic
    end
  else Ok false.

(** Lines 16 to 20: the body of the loop. *)
Definition keepClientOnly (entry : string * TagValue)
    (clientOnlyTags : gmap string TagValue) : outcome (gmap string TagValue) :=
  let '(name, value) := entry in
  keep ←! isClientOnly name;
  if keep then Ok (<[name := value]> clientOnlyTags) else Ok clientOnlyTags.

(** [GetClientOnlyTags], with the order in which [tags] is enumerated; the
    result [None] is the nil pointer. *)
Definition GetClientOnlyTags (tags : gmap string TagValue)
    (order : list (string * TagValue))
  : outcome (option (gmap string TagValue)) :=
  if Nat.ltb (size tags) 1 then Ok None
  else
    clientOnlyTags ←! forRange keepClientOnly order ∅;
    if Nat.ltb (size clientOnlyTags) 1 then Ok None
    else Ok (Some clientOnlyTags).

End ClientOnlyTags.

(** The names that [GetClientOnlyTags] keeps: a plus sign followed by at
    least one more byte. *)
Definition clientOnlyName (name : string) : Prop :=
  match name with
  | String c rest => c = "+"%char ∧ rest ≠ ""
  | "" => False
  end.

Global Instance clientOnlyName_dec name : Decision (clientOnlyName name).
Proof. destruct name; apply _. Defined.

(** ** TLS listeners *)

(** [TLSListenConfig] *)
Module TLSListenConfig.
Record t : Type := mk {
  Cert : string;
  Key : string
}.
Global Instance eq_dec : EqDecision t.
Proof. solve_decision. Defined.
End TLSListenConfig.

Definition errInvalidPair : string := "tls cert+key: invalid pair".

Section TLS.

(** [tls.Certificate] and [tls.LoadX509KeyPair] of the Go library, and
    [CasefoldName] (irc/strings.go). *)
Variable Certificate : Type.
Variable LoadX509KeyPair : string → string → Certificate + string.
Variable CasefoldName : string → string + string.

(** [tls.Config], of which only [Certificates] is set. *)
Record tlsConfig : Type := mkTlsConfig {
  Certificates : list Certificate
}.

(** The certificate and key of a listener cannot be loaded. *)
Definition unloadablePair (entry : string * TLSListenConfig.t) : Prop :=
  ∃ err, LoadX509KeyPair (TLSListenConfig.Cert entry.2)
           (TLSListenConfig.Key entry.2) = inr err.

(** [Config] of [TLSListenConfig]: the configuration ([inl]) or the error
    ([inr]). *)
Definition TLSListenConfig_Config (conf : TLSListenConfig.t)
  : tlsConfig + string :=
  match LoadX509KeyPair (TLSListenConfig.Cert conf) (TLSListenConfig.Key conf) with
  | inr _ => inr errInvalidPair
  | inl cert => inl (mkTlsConfig [cert])
  end.

(** Lines 371 to 380: the body of the loop of [TLSListeners]; a listener
    whose name does not case-fold is logged and left out. The values of
    [conf.Server.TLSListeners] are pointers, which are taken not to be
    nil. *)
Definition addListener (entry : string * TLSListenConfig.t)
    (tlsListeners : gmap string tlsConfig) : outcome (gmap string tlsConfig) :=
  let '(s, tlsListenersConf) := entry in
  match TLSListenConfig_Config tlsListenersConf with
  | inr _ => Fatal
  | inl config =>
      match CasefoldName s with
      | inl name => Ok (<[name := config]> tlsListeners)
      | inr _ => Ok tlsListeners
      end
  end.

(** [TLSListeners], with the order in which [conf.Server.TLSListeners] is
    enumerated. *)
Definition TLSListeners (order : list (string * TLSListenConfig.t))
  : outcome (gmap string tlsConfig) :=
  forRange addListener order ∅.

End TLS.

Arguments Certificates {Certificate} _.
Arguments mkTlsConfig {Certificate} _.

(** ** The configuration and [LoadConfig] *)

(** [PassConfig] *)
Module PassConfig.
Record t : Type := mk { Password : string }.
End PassConfig.

(** [STSConfig]; a [time.Duration] is a number of nanoseconds. *)
Module STSConfig.
Record t : Type := mk {
  Enabled : bool;
  Duration : Z;
  DurationString : string;
  Port : Z;
  Preload : bool
}.
Definition withDuration (d : Z) (sts : t) : t :=
  mk (Enabled sts) d (DurationString sts) (Port sts) (Preload sts).
End STSConfig.

(** [ConnectionThrottleConfig] *)
Module ConnectionThrottleConfig.
Record t : Type := mk {
  Enabled : bool;
  CidrLenIPv4 : Z;
  CidrLenIPv6 : Z;
  ConnectionsPerCidr : Z;
  DurationString : string;
  Duration : Z;
  BanDurationString : string;
  BanDuration : Z;
  BanMessage : string;
  Exempted : list string
}.
Definition withDuration (d : Z) (c : t) : t :=
  mk (Enabled c) (CidrLenIPv4 c) (CidrLenIPv6 c) (ConnectionsPerCidr c)
     (DurationString c) d (BanDurationString c) (BanDuration c)
     (BanMessage c) (Exempted c).
Definition withBanDuration (d : Z) (c : t) : t :=
  mk (Enabled c) (CidrLenIPv4 c) (CidrLenIPv6 c) (ConnectionsPerCidr c)
     (DurationString c) (Duration c) (BanDurationString c) d
     (BanMessage c) (Exempted c).
End ConnectionThrottleConfig.

(** [LineLenConfig] *)
Module LineLenConfig.
Record t : Type := mk { Tags : Z; Rest : Z }.
End LineLenConfig.

(** The field [Server] of [Config]. The fields [RestAPI] and
    [ConnectionLimits], which no function of the file reads, are left
    out. *)
Module ConfigServer.
Record t : Type := mk {
  PassConfig : PassConfig.t;
  Password : string;
  Name : string;
  Listen : list string;
  Wslisten : string;
  TLSListeners : gmap string TLSListenConfig.t;
  STS : STSConfig.t;
  CheckIdent : bool;
  MOTD : string;
  MaxSendQString : string;
  MaxSendQBytes : N;
  ConnectionThrottle : ConnectionThrottleConfig.t
}.
Definition withPassConfig (p : PassConfig.t) (s : t) : t :=
  mk p (Password s) (Name s) (Listen s) (Wslisten s) (TLSListeners s) (STS s)
     (CheckIdent s) (MOTD s) (MaxSendQString s) (MaxSendQBytes s)
     (ConnectionThrottle s).
Definition withSTS (sts : STSConfig.t) (s : t) : t :=
  mk (PassConfig s) (Password s) (Name s) (Listen s) (Wslisten s)
     (TLSListeners s) sts (CheckIdent s) (MOTD s) (MaxSendQString s)
     (MaxSendQBytes s) (ConnectionThrottle s).
Definition withConnectionThrottle (c : ConnectionThrottleConfig.t) (s : t) : t :=
  mk (PassConfig s) (Password s) (Name s) (Listen s) (Wslisten s)
     (TLSListeners s) (STS s) (CheckIdent s) (MOTD s) (MaxSendQString s)
     (MaxSendQBytes s) c.
Definition withMaxSendQBytes (n : N) (s : t) : t :=
  mk (PassConfig s) (Password s) (Name s) (Listen s) (Wslisten s)
     (TLSListeners s) (STS s) (CheckIdent s) (MOTD s) (MaxSendQString s)
     n (ConnectionThrottle s).
End ConfigServer.

(** The field [Limits] of [Config]; the lengths are of type [uint]. *)
Module ConfigLimits.
Record t : Type := mk {
  AwayLen : N;
  ChanListModes : N;
  ChannelLen : N;
  KickLen : N;
  MonitorEntries : N;
  NickLen : N;
  TopicLen : N;
  WhowasEntries : N;
  LineLen : LineLenConfig.t
}.
End ConfigLimits.

(** [Config], over the type [cloak.Config] of irc/cloaking. The fields
    [Network] and [Datastore] are flattened into [NetworkName],
    [IPCloaking] and [DatastorePath]; the fields [Accounts], [Channels] and
    [Debug], which no function of the file reads, are left out. *)
Module Config.
Section WithCloak.
Variable cloakConfig : Type.
Record t : Type := mk {
  NetworkName : string;
  IPCloaking : cloakConfig;
  Server : ConfigServer.t;
  DatastorePath : string;
  OperClasses : gmap string OperClassConfig.t;
  Opers : gmap string OperConfig.t;
  Logging : list LoggingConfig.t;
  Limits : ConfigLimits.t
}.
Definition withServer (srv : ConfigServer.t) (c : t) : t :=
  mk (NetworkName c) (IPCloaking c) srv (DatastorePath c) (OperClasses c)
     (Opers c) (Logging c) (Limits c).
Definition withLogging (l : list LoggingConfig.t) (c : t) : t :=
  mk (NetworkName c) (IPCloaking c) (Server c) (DatastorePath c)
     (OperClasses c) (Opers c) l (Limits c).
End WithCloak.
Arguments NetworkName {cloakConfig} _.
Arguments IPCloaking {cloakConfig} _.
Arguments Server {cloakConfig} _.
Arguments DatastorePath {cloakConfig} _.
Arguments OperClasses {cloakConfig} _.
Arguments Opers {cloakConfig} _.
Arguments Logging {cloakConfig} _.
Arguments Limits {cloakConfig} _.
Arguments withServer {cloakConfig} _ _.
Arguments withLogging {cloakConfig} _ _.
End Config.

(** [%d] of package [fmt] on an [int]. *)
Definition itoa (z : Z) : string := NilZero.string_of_int (Z.to_int z).

Definition errNetworkName : string := "Network name missing".
Definition errServerName : string := "Server name missing".
Definition errHostname : string :=
  "Server name must match the format of a hostname".
Definition errDatastore : string := "Datastore path missing".
Definition errListen : string := "Server listening addresses missing".
Definition errLimits : string :=
  "Limits aren't setup properly, check them and make them sane".
Definition errSTSDuration (err : string) : string :=
  "Could not parse STS duration: " +:+ err.
Definition errSTSPort (port : Z) : string :=
  "STS port is incorrect, should be 0 if disabled: " +:+ itoa port.
Definition errCloaking (err : string) : string :=
  "IPv4 cloaking config is incorrect: " +:+ err.
Definition errThrottleDuration (err : string) : string :=
  "Could not parse connection-throttle duration: " +:+ err.
Definition errThrottleBanDuration (err : string) : string :=
  "Could not parse connection-throttle ban-duration: " +:+ err.
Definition errLineLen : string :=
  "Line lengths must be 512 or greater (check the linelen section under server->limits)".
Definition errMaxSendQ (err : string) : string :=
  "Could not parse maximum SendQ size (make sure it only contains whole numbers): "
  +:+ err.

Section LoadConfig.

(** The functions of other packages that [LoadConfig] calls; a call
    returns a value ([inl]) or an error ([inr], with its message).
    [Unmarshal] is [yaml.Unmarshal] into the pointer [config], which it can
    leave nil ([None]). *)
Variable cloakConfig : Type.
Variable IP : Type.
Variable ReadFile : string → string + string.
Variable Unmarshal : string → option (Config.t cloakConfig) + string.
Variable IsHostname : string → bool.
Variable custime_ParseDuration : string → Z + string.
Variable time_ParseDuration : string → Z + string.
Variable ParseIP : string → IP.
Variable cloak_Enabled : cloakConfig → bool.
Variable cloak_IPv4 : IP → cloakConfig → string + string.
Variable bytefmt_ToBytes : string → N + string.
Variable ToLower : string → string.
Variable LogLevelNames : gmap string Z.

(** Lines 397 to 400. *)
Definition copyPassword (config : Config.t cloakConfig) : Config.t cloakConfig :=
  let server := Config.Server config in
  if negb (String.eqb (ConfigServer.Password server) "") then
    Config.withServer
      (ConfigServer.withPassConfig
         (PassConfig.mk (ConfigServer.Password server)) server) config
  else config.

(** Lines 417 to 419. *)
Definition limitsTooLow (limits : ConfigLimits.t) : bool :=
  N.ltb (ConfigLimits.NickLen limits) 1
  || N.ltb (ConfigLimits.ChannelLen limits) 2
  || N.ltb (ConfigLimits.AwayLen limits) 1
  || N.ltb (ConfigLimits.KickLen limits) 1
  || N.ltb (ConfigLimits.TopicLen limits) 1.

(** Lines 420 to 428. *)
Definition checkSTS (config : Config.t cloakConfig)
  : outcome (Config.t cloakConfig) :=
  let server := Config.Server config in
  let sts := ConfigServer.STS server in
  if STSConfig.Enabled sts then
    match custime_ParseDuration (STSConfig.DurationString sts) with
    | inr err => Err (errSTSDuration err)
    | inl d =>
        let config :=
          Config.withServer
            (ConfigServer.withSTS (STSConfig.withDuration d sts) server)
            config in
        if Z.ltb (STSConfig.Port sts) 0 || Z.ltb 65535 (STSConfig.Port sts)
        then Err (errSTSPort (STSConfig.Port sts))
        else Ok config
    end
  else Ok config.

(** Lines 429 to 434. *)
Definition checkCloaking (config : Config.t cloakConfig) : outcome unit :=
  if cloak_Enabled (Config.IPCloaking config) then
    match cloak_IPv4 (ParseIP "8.8.8.8") (Config.IPCloaking config) with
    | inr err => Err (errCloaking err)
    | inl _ => Ok tt
    end
  else Ok tt.

(** Lines 435 to 444. *)
Definition checkThrottle (config : Config.t cloakConfig)
  : outcome (Config.t cloakConfig) :=
  let server := Config.Server config in
  let throttle := ConfigServer.ConnectionThrottle server in
  if ConnectionThrottleConfig.Enabled throttle then
    match time_ParseDuration
            (ConnectionThrottleConfig.DurationString throttle) with
    | inr err => Err (errThrottleDuration err)
    | inl d =>
        let throttle := ConnectionThrottleConfig.withDuration d throttle in
        match time_ParseDuration
                (ConnectionThrottleConfig.BanDurationString throttle) with
        | inr err => Err (errThrottleBanDuration err)
        | inl b =>
            Ok (Config.withServer
                  (ConfigServer.withConnectionThrottle
                     (ConnectionThrottleConfig.withBanDuration b throttle)
                     server)
                  config)
        end
    end
  else Ok config.

(** Lines 397 to 499: [LoadConfig] after the document is parsed. *)
Definition validateConfig (config : Config.t cloakConfig)
  : outcome (Config.t cloakConfig) :=
  let config := copyPassword config in
  if String.eqb (Config.NetworkName config) "" then Err errNetworkName
  else if String.eqb (ConfigServer.Name (Config.Server config)) "" then
    Err errServerName
  else if negb (IsHostname (ConfigServer.Name (Config.Server config))) then
    Err errHostname
  else if String.eqb (Config.DatastorePath config) "" then Err errDatastore
  else if Nat.eqb (length (ConfigServer.Listen (Config.Server config))) 0 then
    Err errListen
  else if limitsTooLow (Config.Limits config) then Err errLimits
  else
    config ←! checkSTS config;
    _ ←! checkCloaking config;
    config ←! checkThrottle config;
    let lineLen := ConfigLimits.LineLen (Config.Limits config) in
    if Z.ltb (LineLenConfig.Tags lineLen) 512
       || Z.ltb (LineLenConfig.Rest lineLen) 512
    then Err errLineLen
    else
      newLogConfigs ←! normalizeLogging ToLower LogLevelNames
                         (Config.Logging config);
      let config := Config.withLogging newLogConfigs config in
      match bytefmt_ToBytes
              (ConfigServer.MaxSendQString (Config.Server config)) with
      | inr err => Err (errMaxSendQ err)
      | inl n =>
          Ok (Config.withServer
                (ConfigServer.withMaxSendQBytes n (Config.Server config))
                config)
      end.

(** The conditions on the fields that every configuration needs. *)
Definition requiredFields (config : Config.t cloakConfig) : Prop :=
  Config.NetworkName config ≠ "" ∧
  ConfigServer.Name (Config.Server config) ≠ "" ∧
  IsHostname (ConfigServer.Name (Config.Server config)) = true ∧
  Config.DatastorePath config ≠ "" ∧
  ConfigServer.Listen (Config.Server config) ≠ [] ∧
  limitsTooLow (Config.Limits config) = false.

(** The conditions under which a parsed configuration is accepted. *)
Definition accepted (config : Config.t cloakConfig) : Prop :=
  let server := Config.Server config in
  let limits := Config.Limits config in
  let sts := ConfigServer.STS server in
  let throttle := ConfigServer.ConnectionThrottle server in
  Config.NetworkName config ≠ "" ∧
  ConfigServer.Name server ≠ "" ∧
  IsHostname (ConfigServer.Name server) = true ∧
  Config.DatastorePath config ≠ "" ∧
  ConfigServer.Listen server ≠ [] ∧
  (1 ≤ ConfigLimits.NickLen limits ∧ 2 ≤ ConfigLimits.ChannelLen limits ∧
   1 ≤ ConfigLimits.AwayLen limits ∧ 1 ≤ ConfigLimits.KickLen limits ∧
   1 ≤ ConfigLimits.TopicLen limits)%N ∧
  (STSConfig.Enabled sts = true →
   (∃ d, custime_ParseDuration (STSConfig.DurationString sts) = inl d) ∧
   (0 ≤ STSConfig.Port sts ≤ 65535)%Z) ∧
  (cloak_Enabled (Config.IPCloaking config) = true →
   ∃ cloaked,
     cloak_IPv4 (ParseIP "8.8.8.8") (Config.IPCloaking config) = inl cloaked) ∧
  (ConnectionThrottleConfig.Enabled throttle = true →
   (∃ d, time_ParseDuration
           (ConnectionThrottleConfig.DurationString throttle) = inl d) ∧
   (∃ b, time_ParseDuration
           (ConnectionThrottleConfig.BanDurationString throttle) = inl b)) ∧
  (512 ≤ LineLenConfig.Tags (ConfigLimits.LineLen limits) ∧
   512 ≤ LineLenConfig.Rest (ConfigLimits.LineLen limits))%Z ∧
  Forall (λ logConfig, ∃ logConfig',
            normalizeLogConfig ToLower LogLevelNames logConfig = Ok logConfig')
    (Config.Logging config) ∧
  (∃ n, bytefmt_ToBytes (ConfigServer.MaxSendQString server) = inl n).

(** [LoadConfig] *)
Definition LoadConfig (filename : string) : outcome (Config.t cloakConfig) :=
  match ReadFile filename with
  | inr err => Err err
  | inl data =>
      match Unmarshal data with
      | inr err => Err err
      | inl None => Panic
      | inl (Some config) => validateConfig config
      end
  end.

End LoadConfig.

(** ** Values used in the examples of the further properties *)

(** Tags of a message: one client-only tag, a server tag and a lone plus
    sign. *)
Definition ex_tags : gmap string string :=
  {[ "+draft/reply" := "abc"; "account" := "dan"; "+" := "x" ]}.

(** Operators that bind against [ex_classes], and listeners with the
    stand-in for [tls.LoadX509KeyPair] that reads a certificate only from
    the file fullchain.pem with the key privkey.pem. *)
Definition ex_eve : string * OperConfig.t :=
  ("Eve", OperConfig.mk "server-admin" "" "is the boss" "" "").

Definition ex_carol : string * OperConfig.t :=
  ("Carol", OperConfig.mk "server-admin" "" "" "JDJh" "").

Definition ex_LoadX509KeyPair (cert key : string) : string + string :=
  if String.eqb cert "fullchain.pem" && String.eqb key "privkey.pem"
  then inl "certificate" else inr "open: no such file or directory".

Definition ex_listeners : list (string * TLSListenConfig.t) :=
  [(":6697", TLSListenConfig.mk "fullchain.pem" "privkey.pem");
   ("bad name", TLSListenConfig.mk "fullchain.pem" "privkey.pem")].


(** A configuration and stand-ins for the functions of other packages
    that [LoadConfig] calls: the file ircd.yaml holds the configuration
    [ex_config], in which STS is enabled and cloaking and throttling are
    not. *)
Definition ex_server : ConfigServer.t :=
  ConfigServer.mk (PassConfig.mk "") "JDJh" "irc.example.com" [":6667"] ""
    ∅ (STSConfig.mk true 0 "1mo" 6697 false) true "ircd.motd" "16k" 0
    (ConnectionThrottleConfig.mk false 32 64 12 "not a duration" 0 "" 0
       "Too many connections" []).

Definition ex_limits : ConfigLimits.t :=
  ConfigLimits.mk 200 60 64 390 100 32 390 100 (LineLenConfig.mk 2048 2048).

Definition ex_config : Config.t bool :=
  Config.mk bool "ExampleNet" false ex_server "ircd.db" ex_default ∅
    [rawLogConfig "stderr" "" "* -userinput" "info"] ex_limits.

Definition ex_ReadFile (filename : string) : string + string :=
  if String.eqb filename "ircd.yaml" then inl "document"
  else inr "open: no such file or directory".

Definition ex_Unmarshal (data : string) : option (Config.t bool) + string :=
  if String.eqb data "document" then inl (Some ex_config)
  else inr "yaml: unmarshal errors".

Definition ex_IsHostname (name : string) : bool := strings_Contains name ".".

Definition ex_custime_ParseDuration (s : string) : Z + string :=
  if String.eqb s "1mo" then inl 2592000000000000%Z
  else inr "custime: invalid duration".

Definition ex_time_ParseDuration (s : string) : Z + string :=
  if String.eqb s "10m" then inl 600000000000%Z
  else inr "time: invalid duration".

Definition ex_cloak_IPv4 (ip : string) (conf : bool) : string + string :=
  inl "cloaked".

Definition ex_bytefmt_ToBytes (s : string) : N + string :=
  if String.eqb s "16k" then inl 16384%N
  else inr "byte quantity must be a positive integer with a unit".

Definition ex_LoadConfig : string → outcome (Config.t bool) :=
  LoadConfig bool string ex_ReadFile ex_Unmarshal ex_IsHostname
    ex_custime_ParseDuration ex_time_ParseDuration (λ s, s) (λ b, b)
    ex_cloak_IPv4 ex_bytefmt_ToBytes asciiToLower ex_LogLevelNames.

Definition ex_validateConfig : Config.t bool → outcome (Config.t bool) :=
  validateConfig bool string ex_IsHostname ex_custime_ParseDuration
    ex_time_ParseDuration (λ s, s) (λ b, b) ex_cloak_IPv4 ex_bytefmt_ToBytes
    asciiToLower ex_LogLevelNames.

(** The configuration that [LoadConfig] returns for [ex_config]. *)
Definition ex_loaded : Config.t bool :=
  Config.mk bool "ExampleNet" false
    (ConfigServer.mk (PassConfig.mk "JDJh") "JDJh" "irc.example.com"
       [":6667"] "" ∅ (STSConfig.mk true 2592000000000000 "1mo" 6697 false)
       true "ircd.motd" "16k" 16384
       (ConnectionThrottleConfig.mk false 32 64 12 "not a duration" 0 "" 0
          "Too many connections" []))
    "ircd.db" ex_default ∅
    [LoggingConfig.mk "stderr" false true false "" "* -userinput" ["*"]
       ["userinput"] "info" 1]
    ex_limits.

(** [ex_config] with throttling enabled; its duration does not parse. *)
Definition ex_config_throttled : Config.t bool :=
  Config.withServer
    (ConfigServer.withConnectionThrottle
       (ConnectionThrottleConfig.mk true 32 64 12 "not a duration" 0 "" 0
          "Too many connections" [])
       ex_server)
    ex_config.

(** [ex_config] without a network name. *)
Definition ex_config_unnamed : Config.t bool :=
  Config.mk bool "" false ex_server "ircd.db" ex_default ∅ [] ex_limits.

(** * Properties *)

(** ** Strings *)

Lemma nonempty_true s : nonempty s = true ↔ s ≠ "".
Proof.
  unfold nonempty. destruct (String.eqb_spec s ""); simpl; split; congruence.
Qed.

Lemma nonempty_false s : nonempty s = false ↔ s = "".
Proof.
  unfold nonempty. destruct (String.eqb_spec s ""); simpl; split; congruence.
Qed.

Lemma index0_None s : index0 s = None ↔ s = "".
Proof. unfold index0. destruct s; simpl; split; congruence. Qed.

Lemma prefix_length s1 s2 :
  String.prefix s1 s2 = true → String.length s1 ≤ String.length s2.
Proof.
  revert s2. induction s1 as [|c s1 IH]; intros [|d s2]; simpl; try lia.
  destruct (ascii_dec c d); [|discriminate]. intros H%IH. lia.
Qed.

(** A string contains only strings that are not longer than itself. *)
Lemma strings_Contains_length s substr :
  strings_Contains s substr = true → String.length substr ≤ String.length s.
Proof.
  induction s as [|c s IH]; cbn [strings_Contains];
    intros [H|H]%orb_true_iff.
  - by apply prefix_length in H.
  - discriminate.
  - by apply prefix_length in H.
  - apply IH in H. simpl. lia.
Qed.

Lemma length_asciiToLower s : String.length (asciiToLower s) = String.length s.
Proof. induction s; simpl; congruence. Qed.

Lemma length_string_of_byte b : String.length (string_of_byte b) ≤ 2.
Proof. unfold string_of_byte. case_match; simpl; lia. Qed.

(** ** Capability maps *)

Lemma copyCaps_lookup (base : gmap string bool) capab :
  copyCaps base !! capab = (λ _, true) <$> base !! capab.
Proof.
  unfold copyCaps.
  apply (map_fold_weak_ind
    (λ r m, r !! capab = (λ _ : bool, true) <$> m !! capab)).
  - by rewrite !lookup_empty.
  - intros i x m r Hi IH. destruct (decide (i = capab)) as [->|Hne].
    + by rewrite !lookup_insert_eq.
    + by rewrite !lookup_insert_ne.
Qed.

Lemma addOwn_lookup (caps : gmap string bool) own capab :
  addOwn caps own !! capab =
  if decide (capab ∈ own) then Some true else caps !! capab.
Proof.
  unfold addOwn. revert caps.
  induction own as [|c own IH]; intros caps; cbn [foldl].
  - case_decide as Hin; [by apply elem_of_nil in Hin|done].
  - rewrite IH.
    destruct (decide (capab ∈ own)) as [Hin|Hin].
    + rewrite decide_True; [done|]. by apply list_elem_of_further.
    + destruct (decide (c = capab)) as [->|Hne].
      * rewrite lookup_insert_eq, decide_True; [done|].
        apply list_elem_of_here.
      * rewrite lookup_insert_ne, decide_False; [done| |done].
        by intros [?|?]%elem_of_cons.
Qed.

(** ** The operator-class resolver *)

Section ResolverProofs.

Variable ToLower : string → string.
Variable conf : gmap string OperClassConfig.t.

(** The whois line is computed unless both it and the title are empty. *)
Lemma whoisLine_cases info :
  (∃ w, whoisLine ToLower info = Ok w ∧
        (OperClassConfig.WhoisLine info = "" → OperClassConfig.Title info ≠ ""))
  ∨ (whoisLine ToLower info = Panic ∧
     OperClassConfig.WhoisLine info = "" ∧ OperClassConfig.Title info = "").
Proof.
  unfold whoisLine.
  destruct (nonempty (OperClassConfig.WhoisLine info)) eqn:Hw.
  - left. eexists. split; [done|]. apply nonempty_true in Hw. congruence.
  - apply nonempty_false in Hw.
    destruct (index0 (OperClassConfig.Title info)) as [b|] eqn:Hb.
    + left. eexists. split; [done|]. intros _ Ht%index0_None. congruence.
    + right. by apply index0_None in Hb.
Qed.

Lemma resolves_in_conf name oc :
  resolves ToLower conf name oc → is_Some (conf !! name).
Proof. destruct 1; eauto. Qed.

(** The assembled class of a name is unique. *)
Lemma resolves_functional name oc1 oc2 :
  resolves ToLower conf name oc1 → resolves ToLower conf name oc2 → oc1 = oc2.
Proof.
  intros H1. revert oc2.
  induction H1 as [name info w Hc He Hw|name info base w Hc He Hb IH Hw];
    intros oc2 H2; destruct H2 as [? info' w' Hc' He' Hw'|? info' base' w' Hc' He' Hb' Hw'];
    simplify_eq; try done.
  - congruence.
  - rewrite (IH _ Hb'). congruence.
Qed.

(** What one visit of the inner loop does to a sound state. *)
Lemma visit_post name info ocs am :
  sound ToLower conf ocs → conf !! name = Some info →
  match visit ToLower conf (name, info) (ocs, am) with
  | Ok (ocs', am') =>
      sound ToLower conf ocs' ∧ ocs ⊆ ocs' ∧ (am = true → am' = true) ∧
      (is_Some (ocs' !! name) ∨
       (am' = true ∧ OperClassConfig.Extends info ≠ "" ∧
        ocs !! OperClassConfig.Extends info = None ∧
          is_Some (conf !! OperClassConfig.Extends info))) ∧
      (am' = true → am = true ∨ ocs !! name = None)
  | Err msg =>
      dangling conf name info ∧
      msg = errMissingBase name (OperClassConfig.Extends info)
  | Panic =>
      OperClassConfig.WhoisLine info = "" ∧ OperClassConfig.Title info = ""
  | Fatal => False
  end.
Proof.
  intros Hs Hc. unfold visit.
  destruct (ocs !! name) as [oc|] eqn:Hn.
  { rewrite bool_decide_eq_true_2 by eauto. rewrite Hn.
    split_and!; [done..|by left; eauto|by left]. }
  rewrite (bool_decide_eq_false_2 (is_Some None)) by (by intros [? ?]).
  assert (Hnew : ∀ w caps,
    resolves ToLower conf name (OperClass.mk (OperClassConfig.Title info) w caps) →
    let ocs' := <[name := OperClass.mk (OperClassConfig.Title info) w caps]> ocs in
    sound ToLower conf ocs' ∧ ocs ⊆ ocs' ∧ (am = true → am = true) ∧
    (is_Some (ocs' !! name) ∨
     (am = true ∧ OperClassConfig.Extends info ≠ "" ∧
      ocs !! OperClassConfig.Extends info = None ∧
          is_Some (conf !! OperClassConfig.Extends info))) ∧
    (am = true → am = true ∨ (None : option OperClass.t) = None)).
  { intros w caps Hr ocs'. subst ocs'. split_and!; auto.
    - intros n oc. destruct (decide (name = n)) as [->|Hne].
      + rewrite lookup_insert_eq. by intros [= <-].
      + rewrite lookup_insert_ne by done. apply Hs.
    - by apply insert_subseteq.
    - left. rewrite lookup_insert_eq. eauto. }
  destruct (nonempty (OperClassConfig.Extends info)) eqn:Hne.
  - apply nonempty_true in Hne as Hne'.
    destruct (ocs !! OperClassConfig.Extends info) as [base|] eqn:Hb.
    + rewrite bool_decide_eq_true_2 by eauto. cbn [negb andb].
      unfold assemble, inherited. rewrite Hne, Hb. cbn [default].
      destruct (whoisLine_cases info) as [(w & Hw & _)|(Hw & ? & ?)];
        rewrite Hw; cbn [obind]; [|done].
      apply Hnew. eapply resolves_ext; eauto.
    + rewrite (bool_decide_eq_false_2 (is_Some None)) by (by intros [? ?]).
      cbn [negb andb].
      destruct (conf !! OperClassConfig.Extends info) as [cb|] eqn:Hcb.
      * rewrite bool_decide_eq_true_2 by eauto.
        split_and!; [done..| |by right]. right. split_and!; by eauto.
      * rewrite (bool_decide_eq_false_2 (is_Some None)) by (by intros [? ?]).
        done.
  - apply nonempty_false in Hne as Hne'. cbn [andb].
    unfold assemble, inherited. rewrite Hne.
    destruct (whoisLine_cases info) as [(w & Hw & _)|(Hw & ? & ?)];
      rewrite Hw; cbn [obind]; [|done].
    apply Hnew. eapply resolves_root; eauto.
Qed.

(** What one pass of the inner loop does to a sound state. *)
Lemma pass_post l ocs am :
  sound ToLower conf ocs →
  (∀ name info, (name, info) ∈ l → conf !! name = Some info) →
  match forRange (visit ToLower conf) l (ocs, am) with
  | Ok (ocs', am') =>
      sound ToLower conf ocs' ∧ ocs ⊆ ocs' ∧ (am = true → am' = true) ∧
      (∀ name info, (name, info) ∈ l →
         is_Some (ocs' !! name) ∨
         (am' = true ∧ OperClassConfig.Extends info ≠ "" ∧
          ocs !! OperClassConfig.Extends info = None ∧
          is_Some (conf !! OperClassConfig.Extends info))) ∧
      (am' = true → am = true ∨ ∃ name info, (name, info) ∈ l ∧ ocs !! name = None)
  | Err msg =>
      ∃ name info, (name, info) ∈ l ∧ dangling conf name info ∧
        msg = errMissingBase name (OperClassConfig.Extends info)
  | Panic =>
      ∃ name info, (name, info) ∈ l ∧
        OperClassConfig.WhoisLine info = "" ∧ OperClassConfig.Title info = ""
  | Fatal => False
  end.
Proof.
  revert ocs am. induction l as [|[name info] l IH]; intros ocs am Hs Hl.
  { cbn. split_and!; auto.
    - intros ?? Hin. by apply elem_of_nil in Hin. }
  cbn [forRange].
  pose proof (visit_post name info ocs am Hs (Hl _ _ (list_elem_of_here _ _))) as Hv.
  destruct (visit ToLower conf (name, info) (ocs, am)) as [[ocs1 am1]|msg| |];
    cbn [obind]; [|by exists name, info; split; [left|]..|done].
  destruct Hv as (Hs1 & Hsub1 & Ham1 & Hhere & Hback).
  specialize (IH ocs1 am1 Hs1 (λ n i Hin, Hl n i (list_elem_of_further _ _ _ Hin))).
  destruct (forRange (visit ToLower conf) l (ocs1, am1)) as [[ocs' am']|msg| |];
    [|destruct IH as (n & i & Hin & ?); exists n, i; split; [by right|done]..|done].
  destruct IH as (Hs' & Hsub' & Ham' & Hall & Hback').
  split_and!; [done|by etrans|by auto| |].
  - intros n i [[= -> ->]|Hin]%elem_of_cons.
    + destruct Hhere as [[oc Hoc]|(? & ? & ? & ?)]; [left|right; by auto].
      exists oc. by eapply lookup_weaken.
    + destruct (Hall n i Hin) as [?|(? & ? & Hnone & ?)]; [by left|right].
      split_and!; [done..| |done]. by eapply lookup_weaken_None.
  - intros Ht. destruct (Hback' Ht) as [Ht1|(n & i & Hin & Hnone)].
    + destruct (Hback Ht1) as [?|?]; [by left|right].
      exists name, info. split; [by left|done].
    + right. exists n, i. split; [by right|]. by eapply lookup_weaken_None.
Qed.

(** *** The extends graph *)

Lemma tc_extends_target a b :
  tc (extends_of conf) a b → ∃ c, extends_of conf c b.
Proof. induction 1; eauto. Qed.

(** Without cycles every extends chain ends. *)
Lemma acyclic_sn name : acyclic conf → sn (extends_of conf) name.
Proof.
  intros Hacyc. apply tc_finite_sn; [exact Hacyc|].
  exists ((λ e, OperClassConfig.Extends e.2) <$> map_to_list conf).
  intros b (c & info & Hc & <- & _)%tc_extends_target.
  apply list_elem_of_fmap. exists (c, info). split; [done|].
  by apply elem_of_map_to_list.
Qed.

(** A class with an assembled class is not on a cycle. *)
Lemma resolves_sn name oc :
  resolves ToLower conf name oc → sn (extends_of conf) name.
Proof.
  induction 1 as [name info w Hc He Hw|name info base w Hc He Hb IH Hw];
    constructor; intros b (info' & Hc' & <- & Hne); simplify_eq; done.
Qed.

Lemma sn_no_mutual a b :
  sn (extends_of conf) a → extends_of conf a b → extends_of conf b a → False.
Proof.
  intros Hsn. revert b. induction Hsn as [a _ IH]. intros b Hab Hba.
  exact (IH b Hab a Hba Hab).
Qed.

Lemma resolves_not_dangling name oc info :
  resolves ToLower conf name oc → dangling conf name info → False.
Proof.
  intros Hr (Hc & Hne & Hnone).
  destruct Hr as [? info' w Hc' He Hw|? info' base w Hc' He Hb Hw]; simplify_eq.
  apply resolves_in_conf in Hb as [? Hb]. congruence.
Qed.

(** Below every unresolved class there is one that can be assembled now. *)
Lemma lowest_unresolved (ocs : gmap string OperClass.t) name :
  no_dangling conf → sn (extends_of conf) name →
  is_Some (conf !! name) → ocs !! name = None →
  ∃ r info, conf !! r = Some info ∧ ocs !! r = None ∧
    (OperClassConfig.Extends info = "" ∨
     is_Some (ocs !! OperClassConfig.Extends info)).
Proof.
  intros Hnd Hsn. induction Hsn as [name _ IH]. intros [info Hc] Hn.
  destruct (decide (OperClassConfig.Extends info = "")) as [He|He];
    [by eauto 10|].
  destruct (ocs !! OperClassConfig.Extends info) as [base|] eqn:Hb;
    [by eauto 10|].
  apply (IH (OperClassConfig.Extends info)); [by exists info| |done].
  by apply (map_Forall_lookup_1 _ _ _ _ Hnd Hc).
Qed.

Lemma sound_size (ocs : gmap string OperClass.t) :
  sound ToLower conf ocs → size ocs ≤ size conf.
Proof.
  intros Hs. rewrite <- (size_dom (D := gset string) ocs).
  rewrite <- (size_dom (D := gset string) conf).
  apply subseteq_size. intros name [oc Hoc]%elem_of_dom.
  apply elem_of_dom. eapply resolves_in_conf, Hs, Hoc.
Qed.

Lemma sound_empty : sound ToLower conf ∅.
Proof. intros name oc. by rewrite lookup_empty. Qed.

(** A sound map that holds every class is determined by the configuration. *)
Lemma sound_complete_unique (m1 m2 : gmap string OperClass.t) :
  sound ToLower conf m1 → sound ToLower conf m2 →
  dom m1 = dom conf → dom m2 = dom conf → m1 = m2.
Proof.
  intros Hs1 Hs2 Hd1 Hd2. apply map_eq. intros name.
  destruct (m1 !! name) as [oc1|] eqn:H1, (m2 !! name) as [oc2|] eqn:H2.
  - f_equal. eapply resolves_functional; eauto.
  - apply not_elem_of_dom in H2. rewrite Hd2, <- Hd1 in H2.
    by apply not_elem_of_dom in H2; simplify_eq.
  - apply not_elem_of_dom in H1. rewrite Hd1, <- Hd2 in H1.
    by apply not_elem_of_dom in H1; simplify_eq.
  - done.
Qed.

Lemma sound_complete_titled (m : gmap string OperClass.t) :
  sound ToLower conf m → dom m = dom conf → titled conf.
Proof.
  intros Hs Hd name info Hc Hw Ht.
  assert (is_Some (m !! name)) as [oc Hoc].
  { apply elem_of_dom. rewrite Hd. apply elem_of_dom. eauto. }
  apply Hs in Hoc.
  destruct (whoisLine_cases info) as [(w & _ & Hok)|(Hp & _)]; [by apply Hok|].
  destruct Hoc; simplify_eq; congruence.
Qed.

(** A pass that defers a class assembles another one. *)
Lemma pass_progress l ocs ocs' :
  acyclic conf → no_dangling conf → sound ToLower conf ocs →
  l ≡ₚ map_to_list conf →
  forRange (visit ToLower conf) l (ocs, false) = Ok (ocs', true) →
  size ocs < size ocs'.
Proof.
  intros Hacyc Hnd Hs Hl Hpass.
  assert (Hin : ∀ name info, (name, info) ∈ l ↔ conf !! name = Some info).
  { intros. by rewrite Hl, elem_of_map_to_list. }
  pose proof (pass_post l ocs false Hs (λ n i, proj1 (Hin n i))) as Hp.
  rewrite Hpass in Hp. destruct Hp as (_ & Hsub & _ & Hall & Hback).
  destruct (Hback eq_refl) as [?|(name & info & Hl' & Hn)]; [done|].
  destruct (lowest_unresolved ocs name Hnd (acyclic_sn _ Hacyc))
    as (r & ri & Hcr & Hr & Hready); [by apply Hin in Hl'; eauto|done|].
  apply map_subset_size. split; [done|]. intros Hsub'.
  destruct (Hall r ri (proj2 (Hin _ _) Hcr)) as [[oc Hoc]|(_ & Hne & Hnone & _)].
  - pose proof (lookup_weaken _ _ _ _ Hoc Hsub'). congruence.
  - destruct Hready as [?|[? ?]]; congruence.
Qed.

(** *** The outer loop *)

Variable order : nat → list (string * OperClassConfig.t).
Hypothesis order_valid : valid_order conf order.

Lemma order_in_conf i name info :
  (name, info) ∈ order i ↔ conf !! name = Some info.
Proof. by rewrite (order_valid i), elem_of_map_to_list. Qed.

Lemma order_pass_post i ocs am :
  sound ToLower conf ocs →
  match forRange (visit ToLower conf) (order i) (ocs, am) with
  | Ok (ocs', am') =>
      sound ToLower conf ocs' ∧ ocs ⊆ ocs' ∧
      (∀ name info, conf !! name = Some info →
         is_Some (ocs' !! name) ∨
         (am' = true ∧ OperClassConfig.Extends info ≠ "" ∧
          ocs !! OperClassConfig.Extends info = None ∧
          is_Some (conf !! OperClassConfig.Extends info)))
  | Err msg =>
      ∃ name info, dangling conf name info ∧
        msg = errMissingBase name (OperClassConfig.Extends info)
  | Panic => ¬ titled conf
  | Fatal => False
  end.
Proof.
  intros Hs.
  pose proof (pass_post (order i) ocs am Hs
                (λ n c, proj1 (order_in_conf i n c))) as Hp.
  destruct (forRange (visit ToLower conf) (order i) (ocs, am))
    as [[ocs' am']|msg| |]; [| | |done].
  - destruct Hp as (? & ? & _ & Hall & _). split_and!; [done..|].
    intros name info Hc. by apply Hall, order_in_conf.
  - destruct Hp as (name & info & _ & ? & ?). eauto.
  - destruct Hp as (name & info & Hin%order_in_conf & Hw & Ht).
    intros Htitled. by apply (Htitled name info Hin Hw).
Qed.

(** The fuelled loop follows the runs of the loop. *)
Lemma OperatorClasses_loop_run fuel i last ocs r :
  OperatorClasses_loop ToLower conf order fuel i last ocs = Some r →
  run ToLower conf order i last ocs r.
Proof.
  revert i last ocs. induction fuel as [|fuel IH]; intros i last ocs; [done|].
  cbn [OperatorClasses_loop]. case_bool_decide as Hlast.
  { intros [= <-]. by constructor. }
  destruct (forRange (visit ToLower conf) (order i) (ocs, false))
    as [[ocs' [|]]|msg| |] eqn:Hpass; cbn [negb].
  - intros Hrec%IH. by eapply run_again.
  - intros [= <-]. by apply run_break.
  - intros [= <-]. by apply run_err.
  - intros [= <-]. by apply run_panic.
  - intros [= <-]. by apply run_fatal.
Qed.

(** The loop ends: every further entry needs a larger map, and the map holds
    at most the classes of the configuration. *)
Lemma OperatorClasses_loop_total fuel i last ocs :
  sound ToLower conf ocs →
  (last ≤ Z.of_nat (size ocs))%Z →
  (Z.of_nat (size conf) + 1 - last ≤ Z.of_nat fuel)%Z →
  is_Some (OperatorClasses_loop ToLower conf order fuel i last ocs).
Proof.
  revert i last ocs.
  induction fuel as [|fuel IH]; intros i last ocs Hs Hle Hfuel.
  { apply sound_size in Hs. lia. }
  cbn [OperatorClasses_loop]. case_bool_decide as Hlast; [by eauto|].
  pose proof (order_pass_post i ocs false Hs) as Hp.
  destruct (forRange (visit ToLower conf) (order i) (ocs, false))
    as [[ocs' [|]]|msg| |]; cbn [negb]; [|by eauto..].
  destruct Hp as (Hs' & Hsub%map_subseteq_size & _).
  apply IH; [done|lia..].
Qed.

(** More fuel does not change the result. *)
Lemma OperatorClasses_loop_fuel fuel fuel' i last ocs r :
  fuel ≤ fuel' →
  OperatorClasses_loop ToLower conf order fuel i last ocs = Some r →
  OperatorClasses_loop ToLower conf order fuel' i last ocs = Some r.
Proof.
  revert fuel' i last ocs.
  induction fuel as [|fuel IH]; intros fuel' i last ocs Hle; [done|].
  destruct fuel' as [|fuel']; [lia|].
  cbn [OperatorClasses_loop]. case_bool_decide; [done|].
  destruct (forRange (visit ToLower conf) (order i) (ocs, false))
    as [[ocs' [|]]|msg| |]; cbn [negb]; try done.
  apply IH. lia.
Qed.

(** [OperatorClasses] returns, and its result is that of a run from the
    empty map. *)
Lemma OperatorClasses_run :
  ∃ r, OperatorClasses ToLower conf order = Some r ∧
       run ToLower conf order 0 (-1) ∅ r.
Proof.
  destruct (OperatorClasses_loop_total (size conf + 2) 0 (-1) ∅) as [r Hr];
    [apply sound_empty|rewrite map_size_empty; lia|lia|].
  exists r. split; [done|]. exact (OperatorClasses_loop_run _ _ _ _ _ Hr).
Qed.

(** What a run from a sound state can return. *)
Lemma run_post i last ocs r :
  sound ToLower conf ocs →
  run ToLower conf order i last ocs r →
  match r with
  | Ok m => sound ToLower conf m ∧ dom m = dom conf
  | Err msg =>
      msg = errLooping ∨
      ∃ name info, dangling conf name info ∧
        msg = errMissingBase name (OperClassConfig.Extends info)
  | Panic => ¬ titled conf
  | Fatal => False
  end.
Proof.
  intros Hs Hrun.
  induction Hrun as [i last ocs Hl|i last ocs ocs' Hl Hpass
    |i last ocs ocs' r Hl Hpass Hrun IH|i last ocs msg Hl Hpass
    |i last ocs Hl Hpass|i last ocs Hl Hpass];
    pose proof (order_pass_post i ocs false Hs) as Hp;
    try (rewrite Hpass in Hp); try done; try by auto.
  - destruct Hp as (Hs' & _ & Hall). split; [done|].
    apply set_eq. intros name. rewrite !elem_of_dom. split.
    + intros [oc Hoc]. eapply resolves_in_conf, Hs', Hoc.
    + intros [info Hc]. by destruct (Hall _ _ Hc) as [?|(? & _)].
  - apply IH, Hp.
Qed.

(** Without cycles and dangling references no run returns an error. *)
Lemma run_acyclic i last ocs r :
  acyclic conf → no_dangling conf →
  sound ToLower conf ocs →
  run ToLower conf order i last ocs r →
  last ≠ Z.of_nat (size ocs) →
  ∀ msg, r ≠ Err msg.
Proof.
  intros Hacyc Hnd Hs Hrun.
  induction Hrun as [i last ocs Hl|i last ocs ocs' Hl Hpass
    |i last ocs ocs' r Hl Hpass Hrun IH|i last ocs msg Hl Hpass
    |i last ocs Hl Hpass|i last ocs Hl Hpass]; intros Hne msg'; try done.
  - pose proof (pass_progress _ _ _ Hacyc Hnd Hs (order_valid i) Hpass).
    pose proof (order_pass_post i ocs false Hs) as Hp. rewrite Hpass in Hp.
    apply IH; [apply Hp|lia].
  - pose proof (order_pass_post i ocs false Hs) as Hp. rewrite Hpass in Hp.
    destruct Hp as (name & info & (Hc & He & Hnone) & _).
    destruct (map_Forall_lookup_1 _ _ _ _ Hnd Hc He). congruence.
Qed.

(** With two classes that extend each other every run ends with the
    looping-dependency error, unless a pass panics or meets a dangling
    reference. *)
Lemma run_mutual a b i last ocs r :
  extends_of conf a b → extends_of conf b a →
  no_dangling conf → titled conf →
  sound ToLower conf ocs →
  run ToLower conf order i last ocs r →
  r = Err errLooping.
Proof.
  intros Hab Hba Hnd Htitled Hs Hrun.
  induction Hrun as [i last ocs Hl|i last ocs ocs' Hl Hpass
    |i last ocs ocs' r Hl Hpass Hrun IH|i last ocs msg Hl Hpass
    |i last ocs Hl Hpass|i last ocs Hl Hpass];
    pose proof (order_pass_post i ocs false Hs) as Hp;
    try (rewrite Hpass in Hp); try done.
  - destruct Hp as (Hs' & _ & Hall). destruct Hab as (info & Hc & He & Hne).
    destruct (Hall _ _ Hc) as [[oc Hoc]|(? & _)]; [|done].
    destruct (sn_no_mutual a b); [|by exists info|done].
    eapply resolves_sn, Hs', Hoc.
  - apply IH, Hp.
  - destruct Hp as (name & info & (Hc & He & Hnone) & _).
    destruct (map_Forall_lookup_1 _ _ _ _ Hnd Hc He). congruence.
Qed.

(** *** Capabilities of an assembled class *)

Lemma resolves_caps name oc :
  resolves ToLower conf name oc →
  ∀ capab,
    (OperClass.Capabilities oc !! capab = Some true ↔ granted conf name capab) ∧
    OperClass.Capabilities oc !! capab ≠ Some false.
Proof.
  induction 1 as [name info w Hc He Hw|name info base w Hc He Hb IH Hw];
    intros capab; cbn [OperClass.Capabilities]; rewrite addOwn_lookup.
  - rewrite lookup_empty. split; [|by case_decide]. split.
    + case_decide; [|done]. intros _. exists name, info. by split; [apply rtc_refl|].
    + intros (a & ainfo & Hrtc & Ha & Hin).
      apply rtc_inv in Hrtc as [<-|(y & (info' & Hc' & Hy & Hne) & _)];
        simplify_eq.
      by rewrite decide_True.
  - destruct (IH capab) as [IHg IHf]. rewrite copyCaps_lookup.
    split; [|case_decide; [done|by destruct (_ !! capab)]]. split.
    + case_decide as Hown.
      { intros _. exists name, info. by split; [apply rtc_refl|]. }
      destruct (OperClass.Capabilities base !! capab) as [[|]|] eqn:Hcap;
        [|done..]. intros _.
      destruct (proj1 IHg eq_refl) as (a & ainfo & Hrtc & Ha & Hin).
      exists a, ainfo. split; [|done].
      eapply rtc_l; [|exact Hrtc]. by exists info.
    + intros (a & ainfo & Hrtc & Ha & Hin). case_decide as Hown; [done|].
      apply rtc_inv in Hrtc as [<-|(y & (info' & Hc' & Hy & Hne) & Hrtc)];
        simplify_eq.
      rewrite (proj2 IHg); [done|]. by exists a, ainfo.
Qed.

(** *** Results of [OperatorClasses] *)

(** Without cycles and dangling references [OperatorClasses] returns the
    assembled classes of all names, or panics on a class without title and
    whois line. *)
Lemma OperatorClasses_acyclic_cases :
  acyclic conf → no_dangling conf →
  (∃ m, OperatorClasses ToLower conf order = Some (Ok m) ∧
        sound ToLower conf m ∧ dom m = dom conf ∧ titled conf)
  ∨ (OperatorClasses ToLower conf order = Some Panic ∧ ¬ titled conf).
Proof.
  intros Hacyc Hnd. destruct OperatorClasses_run as (r & Hr & Hrun).
  pose proof (run_post _ _ _ _ sound_empty Hrun) as Hp.
  pose proof (run_acyclic _ _ _ _ Hacyc Hnd sound_empty Hrun) as Hne.
  rewrite map_size_empty in Hne.
  destruct r as [m|msg| |]; [| |by right|done].
  - left. exists m. destruct Hp as [Hs Hd].
    split_and!; [done..|]. by eapply sound_complete_titled.
  - by destruct (Hne ltac:(lia) msg).
Qed.

(** The resolver on sets without cycles and dangling references in which
    every class has a title or an explicit whois line: it returns a class
    for every name, whose capabilities are those granted by the class and by
    the classes it reaches along extends edges, all with the value [true];
    where no class extends another, these are the class's own. *)
Theorem OperatorClasses_resolves :
  acyclic conf → no_dangling conf → titled conf →
  ∃ m, OperatorClasses ToLower conf order = Some (Ok m) ∧
    dom m = dom conf ∧
    (∀ name oc capab, m !! name = Some oc →
       (OperClass.Capabilities oc !! capab = Some true ↔ granted conf name capab) ∧
       OperClass.Capabilities oc !! capab ≠ Some false) ∧
    ((∀ name info, conf !! name = Some info →
        OperClassConfig.Extends info = "") →
     ∀ name info oc capab, conf !! name = Some info → m !! name = Some oc →
       OperClass.Capabilities oc !! capab =
       if decide (capab ∈ OperClassConfig.Capabilities info)
       then Some true else None).
Proof.
  intros Hacyc Hnd Htitled.
  destruct (OperatorClasses_acyclic_cases Hacyc Hnd)
    as [(m & Hr & Hs & Hd & _)|[_ ?]]; [|done].
  exists m. split_and!; [done..| |].
  - intros name oc capab Hoc. by eapply resolves_caps, Hs.
  - intros Hflat name info oc capab Hc Hoc. apply Hs in Hoc.
    destruct Hoc as [? info' w Hc' He Hw|? info' base w Hc' He Hb Hw];
      simplify_eq.
    + cbn. by rewrite addOwn_lookup, lookup_empty.
    + by destruct He, (Hflat _ _ Hc).
Qed.

Lemma errMissingBase_not_looping name base :
  errMissingBase name base ≠ errLooping.
Proof. unfold errMissingBase, errLooping. cbn. discriminate. Qed.

(** With a dangling reference the first pass ends the resolver: it returns
    the missing-base error of a dangling class, or it panics on a class
    without title and whois line that it visits before; the looping error is
    never returned. *)
Theorem OperatorClasses_dangling name info :
  dangling conf name info →
  ((∃ n i, dangling conf n i ∧
      OperatorClasses ToLower conf order =
      Some (Err (errMissingBase n (OperClassConfig.Extends i))))
   ∨ (OperatorClasses ToLower conf order = Some Panic ∧ ¬ titled conf))
  ∧ OperatorClasses ToLower conf order ≠ Some (Err errLooping).
Proof.
  intros Hd. destruct OperatorClasses_run as (r & Hr & Hrun).
  assert (Hcases :
    (∃ n i, dangling conf n i ∧
       r = Err (errMissingBase n (OperClassConfig.Extends i)))
    ∨ (r = Panic ∧ ¬ titled conf)).
  { pose proof (order_pass_post 0 ∅ false sound_empty) as Hp.
    assert (Hno : ∀ ocs' am,
      forRange (visit ToLower conf) (order 0) (∅, false) = Ok (ocs', am) →
      False).
    { intros ocs' am Hpass. rewrite Hpass in Hp.
      destruct Hp as (Hs' & _ & Hall), Hd as (Hc & He & Hnone).
      destruct (Hall _ _ Hc) as [[oc Hoc]|(_ & _ & _ & [? ?])]; [|congruence].
      eapply resolves_not_dangling; [by eapply Hs'|done]. }
    inversion Hrun as [i last ocs Hl|i last ocs ocs' Hl Hpass
      |i last ocs ocs' r' Hl Hpass Hrun'|i last ocs msg Hl Hpass
      |i last ocs Hl Hpass|i last ocs Hl Hpass]; subst;
      try rewrite Hpass in Hp.
    - by rewrite map_size_empty in Hl.
    - by destruct (Hno _ _ Hpass).
    - by destruct (Hno _ _ Hpass).
    - left. destruct Hp as (n & i & ? & ->). eauto.
    - by right.
    - done. }
  rewrite Hr. split.
  - destruct Hcases as [(n & i & Hni & Heq)|[Heq Hnt]]; subst r.
    + left. by exists n, i.
    + by right.
  - destruct Hcases as [(n & i & Hni & Heq)|[Heq Hnt]]; subst r.
    + intros Heq. apply (errMissingBase_not_looping n (OperClassConfig.Extends i)).
      congruence.
    + done.
Qed.

End ResolverProofs.

(** *** Passes from an arbitrary state *)

Lemma visit_present ToLower conf name info ocs am ocs' am' :
  visit ToLower conf (name, info) (ocs, am) = Ok (ocs', am') →
  ocs ⊆ ocs' ∧ (am = true → am' = true) ∧
  (is_Some (ocs' !! name) ∨ am' = true).
Proof.
  unfold visit. destruct (ocs !! name) as [oc|] eqn:Hn.
  { rewrite bool_decide_eq_true_2 by eauto. intros [= <- <-].
    split_and!; [done..|]. left. eauto. }
  rewrite (bool_decide_eq_false_2 (is_Some None)) by (by intros [? ?]).
  destruct (_ && _).
  { case_bool_decide; [|done]. intros [= <- <-]. auto. }
  unfold assemble. destruct (whoisLine ToLower info) as [w| | |]; [|done..].
  cbn [obind]. intros [= <- <-]. split_and!; [|done|].
  - by apply insert_subseteq.
  - left. rewrite lookup_insert_eq. eauto.
Qed.

Lemma pass_present ToLower conf l ocs am ocs' am' :
  forRange (visit ToLower conf) l (ocs, am) = Ok (ocs', am') →
  ocs ⊆ ocs' ∧ (am = true → am' = true) ∧
  (∀ name info, (name, info) ∈ l → is_Some (ocs' !! name) ∨ am' = true).
Proof.
  revert ocs am. induction l as [|[name info] l IH]; intros ocs am.
  { intros [= <- <-]. split_and!; [done..|].
    intros ?? Hin. by apply elem_of_nil in Hin. }
  cbn [forRange].
  destruct (visit ToLower conf (name, info) (ocs, am))
    as [[ocs1 am1]|msg| |] eqn:Hv; [|done..].
  cbn [obind]. intros Hrest.
  apply visit_present in Hv as (Hsub1 & Ham1 & Hhere).
  apply IH in Hrest as (Hsub & Ham & Hall).
  split_and!; [by etrans|by auto|].
  intros n i [[= -> ->]|Hin]%elem_of_cons; [|by eauto].
  destruct Hhere as [[oc Hoc]|?]; [left|right; by auto].
  exists oc. by eapply lookup_weaken.
Qed.

(** *** Sets of classes given explicitly *)

(** A rank that falls along every extends edge excludes cycles. *)
Lemma acyclic_by_rank conf (rank : string → nat) :
  map_Forall (λ a info,
    OperClassConfig.Extends info ≠ "" →
    rank (OperClassConfig.Extends info) < rank a) conf →
  acyclic conf.
Proof.
  intros Hrank.
  assert (Hlt : ∀ a b, tc (extends_of conf) a b → rank b < rank a).
  { induction 1 as [a b (info & Hc & <- & Hne)|a b c (info & Hc & <- & Hne) _ IH].
    - by apply (Hrank a info).
    - pose proof (Hrank a info Hc Hne). lia. }
  intros name Hcyc%Hlt. lia.
Qed.

Lemma valid_order_singleton name info order :
  valid_order {[name := info]} order → ∀ i, order i = [(name, info)].
Proof.
  intros Hv i. apply Permutation_singleton_r.
  by rewrite (Hv i), map_to_list_singleton.
Qed.

(** A single class without extends, title and whois line makes the
    resolver panic. *)
Lemma singleton_untitled_panics ToLower name info order :
  OperClassConfig.WhoisLine info = "" → OperClassConfig.Title info = "" →
  OperClassConfig.Extends info = "" →
  valid_order {[name := info]} order →
  OperatorClasses ToLower {[name := info]} order = Some Panic.
Proof.
  intros Hw Ht He Hv. unfold OperatorClasses.
  rewrite map_size_singleton. cbn [Nat.add OperatorClasses_loop].
  rewrite bool_decide_eq_false_2 by (rewrite map_size_empty; lia).
  rewrite (valid_order_singleton _ _ _ Hv 0). cbn [forRange].
  unfold visit, assemble, whoisLine. rewrite lookup_empty, He, Hw, Ht.
  by rewrite (bool_decide_eq_false_2 (is_Some None)) by (by intros [? ?]).
Qed.

(** The whois line never gets the article an: a string of fewer than five
    bytes does not contain aeiou. *)
Lemma whoisLine_article ToLower info :
  (∀ b, String.length (ToLower (string_of_byte b)) < 5) →
  OperClassConfig.WhoisLine info = "" → OperClassConfig.Title info ≠ "" →
  whoisLine ToLower info = Ok ("is a " +:+ OperClassConfig.Title info).
Proof.
  intros Hlen Hw Ht. unfold whoisLine. rewrite Hw. cbn [nonempty String.eqb negb].
  destruct (index0 (OperClassConfig.Title info)) as [b|] eqn:Hb;
    [|by apply index0_None in Hb].
  destruct (strings_Contains _ _) eqn:Hc; [|done].
  apply strings_Contains_length in Hc. specialize (Hlen b). cbn in Hc. lia.
Qed.

Lemma asciiToLower_byte_short b :
  String.length (asciiToLower (string_of_byte b)) < 5.
Proof.
  rewrite length_asciiToLower. pose proof (length_string_of_byte b). lia.
Qed.

(** With ASCII lower-casing every defaulted whois line starts with is a. *)
Lemma whoisLine_asciiToLower info :
  OperClassConfig.WhoisLine info = "" → OperClassConfig.Title info ≠ "" →
  whoisLine asciiToLower info = Ok ("is a " +:+ OperClassConfig.Title info).
Proof. apply whoisLine_article, asciiToLower_byte_short. Qed.

(** *** The claims on the resolver *)

Lemma enumerate_valid conf : valid_order conf (enumerate conf).
Proof. by intros i. Qed.

Lemma ex_untitled_acyclic : acyclic ex_untitled.
Proof.
  apply (acyclic_by_rank _ (λ _, 0)).
  apply (bool_decide_unpack _). vm_compute. exact I.
Qed.

(** C1 (the code panics where the claim requires a result): the set
    [ex_untitled] has no cycle and no dangling reference, and its single
    class has an empty title and an empty whois line; [OperatorClasses] does
    not return classes for it, the index [Title[0]] is out of range. *)
Theorem OperatorClasses_ex_untitled_panics :
  acyclic ex_untitled ∧ no_dangling ex_untitled ∧
  valid_order ex_untitled (enumerate ex_untitled) ∧
  OperatorClasses asciiToLower ex_untitled (enumerate ex_untitled) = Some Panic.
Proof.
  split_and!.
  - exact ex_untitled_acyclic.
  - apply (bool_decide_unpack _). vm_compute. exact I.
  - apply enumerate_valid.
  - vm_compute. reflexivity.
Qed.

(** C2 (the code never writes the article an): the class titled Admin with
    no explicit whois line gets the whois line is a Admin, where the claim
    says is an Admin; the class titled Bot gets is a Bot. The arguments of
    [strings.Contains] are exchanged, the test asks whether the first
    character contains aeiou. *)
Theorem OperatorClasses_ex_admin_whois_line :
  OperatorClasses asciiToLower ex_admin (enumerate ex_admin) =
  Some (Ok {[ "admin" :=
                OperClass.mk "Admin" "is a Admin" {[ "oper:rehash" := true ]};
              "bot" := OperClass.mk "Bot" "is a Bot" ∅ ]}).
Proof. vm_compute. reflexivity. Qed.

(** C9: for a class record whose whois line and title are empty the index
    [Title[0]] is out of range; the computation of the whois line panics, so
    does every visit of the record that assembles it, and so does the
    resolver on the set that holds this record alone, without extends, and
    on every set with this record that has no cycle and no dangling
    reference. *)
Theorem untitled_class_panics ToLower info :
  OperClassConfig.WhoisLine info = "" → OperClassConfig.Title info = "" →
  index0 (OperClassConfig.Title info) = None ∧
  whoisLine ToLower info = Panic ∧
  (∀ conf name ocs anyMissing,
     ocs !! name = None →
     OperClassConfig.Extends info = "" ∨
       is_Some (ocs !! OperClassConfig.Extends info) →
     visit ToLower conf (name, info) (ocs, anyMissing) = Panic) ∧
  (∀ name order,
     OperClassConfig.Extends info = "" →
     valid_order {[name := info]} order →
     OperatorClasses ToLower {[name := info]} order = Some Panic) ∧
  (∀ conf name order,
     conf !! name = Some info →
     acyclic conf → no_dangling conf → valid_order conf order →
     OperatorClasses ToLower conf order = Some Panic).
Proof.
  intros Hw Ht.
  assert (Hwl : whoisLine ToLower info = Panic).
  { unfold whoisLine. by rewrite Hw, Ht. }
  split_and!; [by rewrite Ht|done| | |].
  - intros conf name ocs am Hn Hready. unfold visit, assemble.
    rewrite Hn, Hwl.
    rewrite (bool_decide_eq_false_2 (is_Some None)) by (by intros [? ?]).
    destruct Hready as [->|Hbase]; [done|].
    rewrite (bool_decide_eq_true_2 _ Hbase). by rewrite andb_false_r.
  - intros name order He Hv. by apply singleton_untitled_panics.
  - intros conf name order Hc Hacyc Hnd Hv.
    destruct (OperatorClasses_acyclic_cases ToLower conf order Hv Hacyc Hnd)
      as [(m & _ & _ & _ & Htitled)|[Hr _]]; [|done].
    by destruct (Htitled name info Hc Hw).
Qed.

Lemma untitled_class_panics_witness :
  index0 "" = None ∧
  OperatorClasses asciiToLower ex_untitled (enumerate ex_untitled) = Some Panic.
Proof.
  destruct (untitled_class_panics asciiToLower
              (OperClassConfig.mk "" "" "" ["oper:local_kill"])
              eq_refl eq_refl) as (Hidx & _ & _ & Hrun & _).
  split; [exact Hidx|].
  apply (Hrun "staff" (enumerate ex_untitled) eq_refl).
  apply enumerate_valid.
Defined.

Lemma enumerate_rev_valid conf : valid_order conf (enumerate_rev conf).
Proof. intros i. apply reverse_Permutation. Qed.

(** C4 (the code can panic before it reports the missing base): in
    [ex_dangling_untitled] the class oper extends ghost, which is not a class
    of the set. When the pass visits the class without title and whois line
    first, the resolver panics and returns no missing-base error; in the
    other order it returns the error that names oper and ghost. *)
Theorem OperatorClasses_ex_dangling_untitled :
  dangling ex_dangling_untitled "oper" ex_oper ∧
  valid_order ex_dangling_untitled ex_helper_first ∧
  valid_order ex_dangling_untitled ex_oper_first ∧
  OperatorClasses asciiToLower ex_dangling_untitled ex_helper_first
    = Some Panic ∧
  OperatorClasses asciiToLower ex_dangling_untitled ex_oper_first
    = Some (Err "Operclass [oper] extends [ghost], which doesn't exist").
Proof.
  split_and!.
  - by vm_compute.
  - intros i. apply (bool_decide_unpack _). vm_compute. exact I.
  - intros i. apply (bool_decide_unpack _). vm_compute. exact I.
  - vm_compute. reflexivity.
  - vm_compute. reflexivity.
Qed.

(** C3, as stated, fails: in [ex_mutual_dangling] the classes a and b extend
    each other, and the resolver returns the missing-base error of the class
    d, not the looping-dependency error. *)
Lemma mutual_extension_counterexample :
  extends_of ex_mutual_dangling "a" "b" ∧
  extends_of ex_mutual_dangling "b" "a" ∧
  valid_order ex_mutual_dangling (enumerate ex_mutual_dangling) ∧
  OperatorClasses asciiToLower ex_mutual_dangling (enumerate ex_mutual_dangling)
    = Some (Err "Operclass [d] extends [ghost], which doesn't exist") ∧
  OperatorClasses asciiToLower ex_mutual_dangling (enumerate ex_mutual_dangling)
    ≠ Some (Err errLooping).
Proof.
  assert (Hrun :
    OperatorClasses asciiToLower ex_mutual_dangling (enumerate ex_mutual_dangling)
    = Some (Err "Operclass [d] extends [ghost], which doesn't exist")).
  { vm_compute. reflexivity. }
  split_and!.
  - eexists. split_and!; [by vm_compute|done..].
  - eexists. split_and!; [by vm_compute|done..].
  - apply enumerate_valid.
  - exact Hrun.
  - rewrite Hrun. unfold errLooping. discriminate.
Qed.

(** C3, amended: when two classes extend each other, no class extends a
    class outside the set and every class has a title or an explicit whois
    line, the resolver returns the looping-dependency error; and whenever a
    completed pass leaves the size of the result map unchanged while a
    record of the pass is still absent from it, the loop ends with that
    error at its next entry. *)
Theorem OperatorClasses_mutual_looping ToLower conf order :
  valid_order conf order →
  (∀ a b,
     extends_of conf a b → extends_of conf b a →
     no_dangling conf → titled conf →
     OperatorClasses ToLower conf order = Some (Err errLooping)) ∧
  (∀ fuel i last ocs ocs' anyMissing name info,
     last ≠ Z.of_nat (size ocs) →
     forRange (visit ToLower conf) (order i) (ocs, false)
       = Ok (ocs', anyMissing) →
     size ocs' = size ocs →
     (name, info) ∈ order i → ocs' !! name = None →
     OperatorClasses_loop ToLower conf order (S (S fuel)) i last ocs
       = Some (Err errLooping)).
Proof.
  intros Hv. split.
  - intros a b Hab Hba Hnd Htitled.
    destruct (OperatorClasses_run ToLower conf order Hv) as (r & Hr & Hrun).
    rewrite Hr. f_equal.
    eapply run_mutual; eauto using sound_empty.
  - intros fuel i last ocs ocs' am name info Hlast Hpass Hsize Hin Hnone.
    cbn [OperatorClasses_loop].
    rewrite (bool_decide_eq_false_2 _ Hlast), Hpass.
    apply pass_present in Hpass as (_ & _ & Hall).
    destruct (Hall _ _ Hin) as [[oc Hoc]| ->]; [congruence|].
    cbn [negb]. rewrite bool_decide_eq_true_2; [done|]. by rewrite Hsize.
Qed.

Lemma OperatorClasses_mutual_looping_witness :
  valid_order ex_mutual (enumerate ex_mutual) ∧
  extends_of ex_mutual "a" "b" ∧ extends_of ex_mutual "b" "a" ∧
  no_dangling ex_mutual ∧ titled ex_mutual ∧
  OperatorClasses asciiToLower ex_mutual (enumerate ex_mutual)
    = Some (Err errLooping).
Proof.
  assert (Hab : extends_of ex_mutual "a" "b").
  { eexists. split_and!; [by vm_compute|done..]. }
  assert (Hba : extends_of ex_mutual "b" "a").
  { eexists. split_and!; [by vm_compute|done..]. }
  assert (Hnd : no_dangling ex_mutual).
  { apply (bool_decide_unpack _). vm_compute. exact I. }
  assert (Ht : titled ex_mutual).
  { apply (bool_decide_unpack _). vm_compute. exact I. }
  split_and!; [apply enumerate_valid|done..|].
  exact (proj1 (OperatorClasses_mutual_looping asciiToLower ex_mutual
                  (enumerate ex_mutual) (enumerate_valid ex_mutual))
           "a" "b" Hab Hba Hnd Ht).
Defined.

(** C7: on a set of classes without cycles and dangling references the
    result of the resolver does not depend on the orders in which the passes
    enumerate the classes: two runs return (the resolver is total) and they
    return the same, be it the same map of classes or, when a class has
    neither title nor whois line, the same panic. *)
Theorem OperatorClasses_order_independent ToLower conf order1 order2 :
  acyclic conf → no_dangling conf →
  valid_order conf order1 → valid_order conf order2 →
  is_Some (OperatorClasses ToLower conf order1) ∧
  OperatorClasses ToLower conf order1 = OperatorClasses ToLower conf order2.
Proof.
  intros Hacyc Hnd Hv1 Hv2.
  destruct (OperatorClasses_acyclic_cases ToLower conf order1 Hv1 Hacyc Hnd)
    as [(m1 & Hr1 & Hs1 & Hd1 & Ht1)|[Hr1 Ht1]];
  destruct (OperatorClasses_acyclic_cases ToLower conf order2 Hv2 Hacyc Hnd)
    as [(m2 & Hr2 & Hs2 & Hd2 & Ht2)|[Hr2 Ht2]];
    rewrite Hr1, Hr2; split; try done.
  do 2 f_equal. by eapply sound_complete_unique.
Qed.

Lemma ex_default_acyclic : acyclic ex_default.
Proof.
  apply (acyclic_by_rank _ ex_default_rank).
  apply (bool_decide_unpack _). vm_compute. exact I.
Qed.

Lemma ex_default_no_dangling : no_dangling ex_default.
Proof. apply (bool_decide_unpack _). vm_compute. exact I. Qed.

Lemma OperatorClasses_order_independent_witness :
  acyclic ex_default ∧ no_dangling ex_default ∧
  valid_order ex_default (enumerate ex_default) ∧
  valid_order ex_default (enumerate_rev ex_default) ∧
  OperatorClasses asciiToLower ex_default (enumerate ex_default)
    = OperatorClasses asciiToLower ex_default (enumerate_rev ex_default).
Proof.
  split_and!;
    [exact ex_default_acyclic|exact ex_default_no_dangling
    |apply enumerate_valid|apply enumerate_rev_valid|].
  exact (proj2 (OperatorClasses_order_independent asciiToLower ex_default
                  (enumerate ex_default) (enumerate_rev ex_default)
                  ex_default_acyclic ex_default_no_dangling
                  (enumerate_valid _) (enumerate_rev_valid _))).
Defined.

Lemma OperatorClasses_resolves_ex_default :
  ∃ m, OperatorClasses asciiToLower ex_default (enumerate_rev ex_default)
       = Some (Ok m) ∧
    dom m = dom ex_default ∧
    ∀ name oc capab, m !! name = Some oc →
      (OperClass.Capabilities oc !! capab = Some true ↔
       granted ex_default name capab) ∧
      OperClass.Capabilities oc !! capab ≠ Some false.
Proof.
  destruct (OperatorClasses_resolves asciiToLower ex_default
              (enumerate_rev ex_default) (enumerate_rev_valid _)
              ex_default_acyclic ex_default_no_dangling)
    as (m & Hm & Hdom & Hcaps & _).
  - apply (bool_decide_unpack _). vm_compute. exact I.
  - exists m. exact (conj Hm (conj Hdom Hcaps)).
Qed.

(** The classes of [ex_default] as the resolver returns them: server-admin
    has its own capabilities and those of the two classes below it. *)
Example OperatorClasses_ex_default :
  OperatorClasses asciiToLower ex_default (enumerate ex_default) =
  Some (Ok
    {[ "local-oper" :=
         OperClass.mk "Local Operator" "is a Local Operator"
           {[ "oper:local_kill" := true; "oper:local_ban" := true;
              "oper:local_unban" := true ]};
       "network-oper" :=
         OperClass.mk "Network Operator" "is a Network Operator"
           {[ "oper:local_kill" := true; "oper:local_ban" := true;
              "oper:local_unban" := true; "oper:remote_kill" := true;
              "oper:remote_ban" := true ]};
       "server-admin" :=
         OperClass.mk "Server Admin" "is a Server Admin"
           {[ "oper:local_kill" := true; "oper:local_ban" := true;
              "oper:local_unban" := true; "oper:remote_kill" := true;
              "oper:remote_ban" := true; "oper:rehash" := true;
              "oper:die" := true ]} ]}).
Proof. vm_compute. reflexivity. Qed.

(** ** The operator binder *)

Section BinderProofs.

Variable CasefoldName : string → string + string.
Variable DecodePasswordHash : string → list ascii + string.
Variable TrimSpace : string → string.
Variable oc : gmap string OperClass.t.

Abbreviation bindOper' :=
  (bindOper CasefoldName DecodePasswordHash TrimSpace oc).

Lemma bindOper_unknown_class name name' opConf pass operators :
  CasefoldName name = inl name' →
  DecodePasswordHash (OperConfig.Password opConf) = inl pass →
  oc !! OperConfig.Class opConf = None →
  bindOper' (name, opConf) operators
    = Err (errUnknownClass name' (OperConfig.Class opConf)).
Proof.
  intros Hn Hp Hc. unfold bindOper, PasswordBytes. by rewrite Hn, Hp, Hc.
Qed.

Lemma bindOper_known_class name name' opConf pass class operators :
  CasefoldName name = inl name' →
  DecodePasswordHash (OperConfig.Password opConf) = inl pass →
  oc !! OperConfig.Class opConf = Some class →
  ∃ oper, bindOper' (name, opConf) operators = Ok (<[name' := oper]> operators)
    ∧ whois_rule opConf class oper.
Proof.
  intros Hn Hp Hc. unfold bindOper, PasswordBytes. rewrite Hn, Hp, Hc.
  cbn [obind]. eexists. split; [done|]. unfold whois_rule.
  cbn [Oper.Class Oper.WhoisLine]. split_and!; [done| |].
  - intros Hw%nonempty_true. by rewrite Hw.
  - intros Hw%nonempty_false. by rewrite Hw.
Qed.



Lemma forRange_bindOper_unknown_class order operators :
  Forall (λ e, (∃ name', CasefoldName e.1 = inl name') ∧
               (∃ pass, DecodePasswordHash (OperConfig.Password e.2) = inl pass))
    order →
  Exists (λ e, oc !! OperConfig.Class e.2 = None) order →
  ∃ name opConf name',
    (name, opConf) ∈ order ∧ CasefoldName name = inl name' ∧
    oc !! OperConfig.Class opConf = None ∧
    forRange bindOper' order operators
      = Err (errUnknownClass name' (OperConfig.Class opConf)).
Proof.
  revert operators.
  induction order as [|[name opConf] order IH]; intros operators Hall Hex.
  { by apply Exists_nil in Hex. }
  apply Forall_cons in Hall as [[[name' Hn'] [pass Hp']] Hall].
  cbn [fst snd] in Hn', Hp'. cbn [forRange].
  destruct (oc !! OperConfig.Class opConf) as [class|] eqn:Hc.
  - destruct (bindOper_known_class _ _ _ _ _ operators Hn' Hp' Hc)
      as (oper & -> & _). cbn [obind].
    apply Exists_cons in Hex as [Hhere|Hex]; [cbn in Hhere; congruence|].
    destruct (IH (<[name' := oper]> operators) Hall Hex)
      as (n & c & n' & Hin & ? & ? & ?).
    exists n, c, n'. by split; [right|].
  - rewrite (bindOper_unknown_class _ _ _ _ _ Hn' Hp' Hc). cbn [obind].
    exists name, opConf, name'. by split; [left|].
Qed.

End BinderProofs.




(** The operators Dan and bob of the examples: Dan inherits the whois line
    of the class, and his modes are trimmed. *)
Example Operators_ex_dan :
  Operators ex_CasefoldName ex_DecodePasswordHash ex_TrimSpace
      [ex_dan] ex_classes
  = Ok {[ "dan" := Oper.mk ex_class "is a Server Admin" "n"
                     (list_ascii_of_string "JDJh") "+is" ]}.
Proof. vm_compute. reflexivity. Qed.

(** ** Logging directives *)

Section LoggingProofs.

Variable ToLower : string → string.
Variable LogLevelNames : gmap string Z.

Lemma hasMethod_insert (methods : gmap string bool) name k :
  hasMethod (<[name := true]> methods) k = true ↔
  name = k ∨ hasMethod methods k = true.
Proof.
  unfold hasMethod. destruct (decide (name = k)) as [->|Hne].
  - rewrite lookup_insert_eq. split; [by left|done].
  - rewrite lookup_insert_ne by done. split; [by right|]. by intros [?|?].
Qed.

(** A method flag is set exactly by a token that lower-cases to its name. *)
Lemma hasMethod_parseMethods method k :
  hasMethod (parseMethods ToLower method) k = true ↔
  ∃ tok, tok ∈ strings_Split method " " ∧ tok ≠ "" ∧ ToLower tok = k.
Proof.
  unfold parseMethods.
  assert (Hgen : ∀ toks (acc : gmap string bool),
    hasMethod
      (foldl (λ methods method,
                if nonempty method then <[ToLower method := true]> methods
                else methods) acc toks) k = true ↔
    hasMethod acc k = true ∨
    ∃ tok, tok ∈ toks ∧ tok ≠ "" ∧ ToLower tok = k).
  { induction toks as [|t toks IH]; intros acc; cbn [foldl].
    - split; [by left|]. intros [?|(tok & Hin & _)]; [done|].
      by apply elem_of_nil in Hin.
    - rewrite IH. destruct (nonempty t) eqn:Ht.
      + apply nonempty_true in Ht. rewrite hasMethod_insert. split.
        * intros [[<-|?]|(tok & Hin & ?)]; [right|by left|right].
          -- exists t. by split; [left|].
          -- exists tok. by split; [right|].
        * intros [?|(tok & [->|Hin]%elem_of_cons & Hne & <-)]; [by auto..|].
          right. by exists tok.
      + apply nonempty_false in Ht. split.
        * intros [?|(tok & Hin & ?)]; [by left|right].
          exists tok. by split; [right|].
        * intros [?|(tok & [->|Hin]%elem_of_cons & Hne & Hk)];
            [by left|done|right]. by exists tok. }
  rewrite Hgen. unfold hasMethod at 1. rewrite lookup_empty.
  split; [by intros [?|?]|by right].
Qed.

Lemma hasMethod_unrecognized method k :
  (∀ tok, tok ∈ strings_Split method " " → tok ≠ "" → ToLower tok ≠ k) →
  hasMethod (parseMethods ToLower method) k = false.
Proof.
  intros Hno. apply not_true_is_false.
  intros (tok & Hin & Hne & Hk)%hasMethod_parseMethods.
  by apply (Hno tok).
Qed.

(** The error of the file method differs from the other errors. *)
Lemma errFileNoFilename_other :
  (∀ level, errLevel level ≠ errFileNoFilename) ∧
  errBareExclusion ≠ errFileNoFilename ∧ errNoTypes ≠ errFileNoFilename.
Proof. split_and!; [intros level|..]; by vm_compute. Qed.

Lemma forRange_parseType_Err toks st msg :
  forRange parseType toks st = Err msg → msg = errBareExclusion.
Proof.
  revert st. induction toks as [|t toks IH]; intros [types excluded]; [done|].
  cbn [forRange]. unfold parseType at 1.
  destruct (negb (nonempty t)); cbn [obind]; [by apply IH|].
  destruct (String.eqb t "-"); cbn [obind]; [by intros [= <-]|].
  destruct (index0 t), (slice1 t); cbn [obind]; try done.
  destruct (Ascii.eqb _ _); cbn [obind]; apply IH.
Qed.

(** The only way to the file error is the file method without a filename. *)
Lemma normalizeLogConfig_file_error logConfig :
  normalizeLogConfig ToLower LogLevelNames logConfig = Err errFileNoFilename ↔
  hasMethod (parseMethods ToLower (LoggingConfig.Method logConfig)) "file"
    = true ∧
  LoggingConfig.Filename logConfig = "".
Proof.
  destruct errFileNoFilename_other as (Hlevel & Hbare & Htypes).
  unfold normalizeLogConfig.
  destruct (hasMethod _ "file") eqn:Hfile; cbn [andb].
  - destruct (String.eqb_spec (LoggingConfig.Filename logConfig) "") as [He|He];
      [done|].
    split; [|by intros [_ ?]].
    destruct (LogLevelNames !! _) as [level|]; [|by intros [= ?%Hlevel]].
    destruct (forRange parseType _ _) as [[types excluded]|msg| |] eqn:Hp;
      cbn [obind]; [|by intros [= ->]; apply forRange_parseType_Err in Hp
                    |done..].
    by destruct (Nat.ltb _ _); [intros [= ?%Htypes]|].
  - split; [|by intros [? _]].
    destruct (LogLevelNames !! _) as [level|]; [|by intros [= ?%Hlevel]].
    destruct (forRange parseType _ _) as [[types excluded]|msg| |] eqn:Hp;
      cbn [obind]; [|by intros [= ->]; apply forRange_parseType_Err in Hp
                    |done..].
    by destruct (Nat.ltb _ _); [intros [= ?%Htypes]|].
Qed.

(** The loop over the directives returns the error of the first directive
    that fails. *)
Lemma normalizeLogging_first_error before logConfig after msg :
  Forall (λ lc, ∃ lc',
            normalizeLogConfig ToLower LogLevelNames lc = Ok lc') before →
  normalizeLogConfig ToLower LogLevelNames logConfig = Err msg →
  normalizeLogging ToLower LogLevelNames (before ++ logConfig :: after)
    = Err msg.
Proof.
  intros Hall Herr. unfold normalizeLogging.
  assert (Hgen : ∀ acc,
    forRange (λ logConfig newLogConfigs,
                logConfig' ←! normalizeLogConfig ToLower LogLevelNames logConfig;
                Ok ((newLogConfigs ++ [logConfig'])%list))
      (before ++ logConfig :: after) acc = Err msg); [|by apply Hgen].
  induction before as [|lc before IH]; intros acc; cbn [app forRange].
  - by rewrite Herr.
  - apply Forall_cons in Hall as [[lc' ->] Hall]. cbn [obind]. by apply IH.
Qed.

(** C5: a directive with the method string file stdout, the level string
    info, the type string server -connect and a filename is normalized to
    the sink flags file and stdout without stderr; the type server is added
    to its included types and the type connect to its excluded types, which
    for a directive as written, whose two lists are empty, makes them the
    included types server and the excluded types connect (the table of
    levels has to know info, and lower-casing has to keep the lower-case
    method names). And a directive whose type tokens leave the list of
    included types empty fails with an error. *)
Theorem normalizeLogConfig_file_stdout logConfig level :
  ToLower "file" = "file" → ToLower "stdout" = "stdout" →
  LogLevelNames !! ToLower "info" = Some level →
  LoggingConfig.Method logConfig = "file stdout" →
  LoggingConfig.LevelString logConfig = "info" →
  LoggingConfig.TypeString logConfig = "server -connect" →
  LoggingConfig.Filename logConfig ≠ "" →
  (∃ logConfig',
     normalizeLogConfig ToLower LogLevelNames logConfig = Ok logConfig' ∧
     LoggingConfig.MethodFile logConfig' = true ∧
     LoggingConfig.MethodStdout logConfig' = true ∧
     LoggingConfig.MethodStderr logConfig' = false ∧
     LoggingConfig.Types logConfig'
       = (LoggingConfig.Types logConfig ++ ["server"])%list ∧
     LoggingConfig.ExcludedTypes logConfig'
       = (LoggingConfig.ExcludedTypes logConfig ++ ["connect"])%list ∧
     (LoggingConfig.Types logConfig = [] →
      LoggingConfig.ExcludedTypes logConfig = [] →
      LoggingConfig.Types logConfig' = ["server"] ∧
      LoggingConfig.ExcludedTypes logConfig' = ["connect"]) ∧
     LoggingConfig.Level logConfig' = level) ∧
  (∀ other excluded,
     forRange parseType (strings_Split (LoggingConfig.TypeString other) " ")
       (LoggingConfig.Types other, LoggingConfig.ExcludedTypes other)
     = Ok ([], excluded) →
     ∃ msg, normalizeLogConfig ToLower LogLevelNames other = Err msg).
Proof.
  intros Hfile Hstdout Hinfo Hm Hl Ht Hf. split.
  - assert (Hmethods : parseMethods ToLower "file stdout"
                       = <["stdout" := true]> (<["file" := true]> ∅)).
    { unfold parseMethods.
      change (strings_Split "file stdout" " ") with ["file"; "stdout"].
      cbn [foldl]. change (nonempty "file") with true.
      change (nonempty "stdout") with true. cbv iota.
      by rewrite Hfile, Hstdout. }
    unfold normalizeLogConfig. rewrite Hm, Hl, Ht, Hmethods, Hinfo.
    apply String.eqb_neq in Hf. rewrite Hf, andb_false_r.
    change (strings_Split "server -connect" " ") with ["server"; "-connect"].
    change (forRange parseType ["server"; "-connect"]
              (LoggingConfig.Types logConfig,
               LoggingConfig.ExcludedTypes logConfig))
      with (Ok (A := list string * list string)
              ((LoggingConfig.Types logConfig ++ ["server"])%list,
               (LoggingConfig.ExcludedTypes logConfig ++ ["connect"])%list)).
    cbn [obind fst snd]. rewrite length_app, Nat.add_comm. cbn [length Nat.add Nat.ltb Nat.leb].
    eexists. split; [done|]. cbn.
    split_and!; try done. by intros -> ->.
  - intros other excluded Hparse. unfold normalizeLogConfig.
    destruct (_ && _); [by eauto|].
    destruct (LogLevelNames !! ToLower (LoggingConfig.LevelString other));
      [|by eauto].
    rewrite Hparse. cbn. eauto.
Qed.

(** C6: a directive whose method string has a token that lower-cases to
    file and whose filename is empty fails with the error of the file
    method, and so does the loop over the directives when the directives
    before it are normalized; with a filename that is not empty, the
    directive does not fail with this error. *)
Theorem normalizeLogConfig_file_needs_filename logConfig :
  (∃ tok, tok ∈ strings_Split (LoggingConfig.Method logConfig) " " ∧
     tok ≠ "" ∧ ToLower tok = "file") →
  (LoggingConfig.Filename logConfig = "" →
   normalizeLogConfig ToLower LogLevelNames logConfig = Err errFileNoFilename ∧
   ∀ before after,
     Forall (λ lc, ∃ lc',
               normalizeLogConfig ToLower LogLevelNames lc = Ok lc') before →
     normalizeLogging ToLower LogLevelNames (before ++ logConfig :: after)
       = Err errFileNoFilename) ∧
  (LoggingConfig.Filename logConfig ≠ "" →
   normalizeLogConfig ToLower LogLevelNames logConfig ≠ Err errFileNoFilename).
Proof.
  intros Hfile%hasMethod_parseMethods. split.
  - intros Hempty.
    assert (normalizeLogConfig ToLower LogLevelNames logConfig
            = Err errFileNoFilename) as Herr
      by by apply normalizeLogConfig_file_error.
    split; [done|]. intros before after Hall.
    by apply normalizeLogging_first_error.
  - intros Hname [_ ?]%normalizeLogConfig_file_error. done.
Qed.

(** C10: when no token of the method string is a recognized method (as for
    the empty method string), normalization does not fail with the error of
    the file method, every normalized directive has its three sink flags
    unset, and normalization succeeds when the level is in the table and the
    type tokens are valid and include a type. *)
Theorem normalizeLogConfig_unrecognized_methods logConfig :
  (∀ tok, tok ∈ strings_Split (LoggingConfig.Method logConfig) " " →
     ¬ recognized ToLower tok) →
  normalizeLogConfig ToLower LogLevelNames logConfig ≠ Err errFileNoFilename ∧
  (∀ logConfig',
     normalizeLogConfig ToLower LogLevelNames logConfig = Ok logConfig' →
     LoggingConfig.MethodFile logConfig' = false ∧
     LoggingConfig.MethodStdout logConfig' = false ∧
     LoggingConfig.MethodStderr logConfig' = false) ∧
  (∀ level types excluded,
     LogLevelNames !! ToLower (LoggingConfig.LevelString logConfig)
       = Some level →
     forRange parseType
       (strings_Split (LoggingConfig.TypeString logConfig) " ")
       (LoggingConfig.Types logConfig, LoggingConfig.ExcludedTypes logConfig)
     = Ok (types, excluded) →
     types ≠ [] →
     ∃ logConfig',
       normalizeLogConfig ToLower LogLevelNames logConfig = Ok logConfig' ∧
       LoggingConfig.Level logConfig' = level ∧
       LoggingConfig.Types logConfig' = types ∧
       LoggingConfig.ExcludedTypes logConfig' = excluded).
Proof.
  intros Hno.
  assert (Hflag : ∀ k, k = "file" ∨ k = "stdout" ∨ k = "stderr" →
    hasMethod (parseMethods ToLower (LoggingConfig.Method logConfig)) k
    = false).
  { intros k Hk. apply hasMethod_unrecognized. intros tok Hin Hne Heq.
    apply (Hno tok Hin). split; [done|]. naive_solver. }
  pose proof (Hflag "file" ltac:(auto)) as Hfile.
  pose proof (Hflag "stdout" ltac:(auto)) as Hstdout.
  pose proof (Hflag "stderr" ltac:(auto)) as Hstderr.
  split_and!.
  - intros [? _]%normalizeLogConfig_file_error. congruence.
  - intros logConfig'. unfold normalizeLogConfig.
    rewrite Hfile, Hstdout, Hstderr. cbn [andb].
    destruct (LogLevelNames !! _); [|done].
    destruct (forRange parseType _ _) as [[types excluded]|msg| |];
      cbn [obind]; [|done..].
    destruct (Nat.ltb _ _); [done|]. by intros [= <-].
  - intros level types excluded Hlevel Hparse Htypes.
    unfold normalizeLogConfig. rewrite Hfile, Hlevel, Hparse. cbn [andb obind].
    destruct types; [done|]. cbn. eauto.
Qed.

End LoggingProofs.

Lemma normalizeLogConfig_file_stdout_witness :
  ∃ logConfig',
    normalizeLogConfig asciiToLower ex_LogLevelNames
      (rawLogConfig "file stdout" "ircd.log" "server -connect" "info")
    = Ok logConfig' ∧
    LoggingConfig.MethodFile logConfig' = true ∧
    LoggingConfig.MethodStdout logConfig' = true ∧
    LoggingConfig.MethodStderr logConfig' = false ∧
    LoggingConfig.Types logConfig' = ["server"] ∧
    LoggingConfig.ExcludedTypes logConfig' = ["connect"] ∧
    LoggingConfig.Level logConfig' = 1%Z.
Proof.
  destruct (normalizeLogConfig_file_stdout asciiToLower ex_LogLevelNames
              (rawLogConfig "file stdout" "ircd.log" "server -connect" "info")
              1%Z eq_refl eq_refl eq_refl eq_refl eq_refl eq_refl
              ltac:(discriminate))
    as [(logConfig' & Hok & Hf & Ho & He & _ & _ & Hraw & Hlevel) _].
  destruct (Hraw eq_refl eq_refl) as [Htypes Hexcl].
  exists logConfig'. by split_and!.
Defined.

Lemma normalizeLogConfig_file_needs_filename_witness :
  normalizeLogConfig asciiToLower ex_LogLevelNames
    (rawLogConfig "stderr FILE" "" "*" "debug")
  = Err errFileNoFilename.
Proof.
  apply (normalizeLogConfig_file_needs_filename asciiToLower ex_LogLevelNames
           (rawLogConfig "stderr FILE" "" "*" "debug")).
  - exists "FILE". split_and!; [|done|reflexivity].
    vm_compute. apply list_elem_of_further, list_elem_of_here.
  - reflexivity.
Defined.

Lemma normalizeLogConfig_unrecognized_methods_witness :
  ∃ logConfig',
    normalizeLogConfig asciiToLower ex_LogLevelNames
      (rawLogConfig "" "" "* -userinput" "warn")
    = Ok logConfig' ∧
    LoggingConfig.Level logConfig' = 2%Z ∧
    LoggingConfig.Types logConfig' = ["*"] ∧
    LoggingConfig.ExcludedTypes logConfig' = ["userinput"].
Proof.
  apply (normalizeLogConfig_unrecognized_methods asciiToLower
           ex_LogLevelNames (rawLogConfig "" "" "* -userinput" "warn")).
  - intros tok Hin [Hne _]. vm_compute in Hin.
    apply list_elem_of_singleton in Hin. done.
  - reflexivity.
  - reflexivity.
  - discriminate.
Defined.

(** * Further properties *)

(** ** Client-only message tags *)

Section ClientOnlyTagsProofs.

Context {TagValue : Type}.
Implicit Types tags acc : gmap string TagValue.

(** The test of the loop never reads out of range. *)
Lemma isClientOnly_decide name :
  isClientOnly name = Ok (bool_decide (clientOnlyName name)).
Proof.
  unfold isClientOnly, index0.
  destruct name as [|c [|d rest]]; cbn [String.length Nat.ltb Nat.leb String.get].
  - by rewrite bool_decide_eq_false_2 by (by intros []).
  - by rewrite bool_decide_eq_false_2 by (by intros [_ ?]).
  - f_equal. destruct (Ascii.eqb_spec c "+") as [->|Hne].
    + by rewrite bool_decide_eq_true_2.
    + by rewrite bool_decide_eq_false_2 by (by intros [? _]).
Qed.

Lemma forRange_keepClientOnly (l : list (string * TagValue)) acc :
  NoDup l.*1 →
  ∃ m, forRange (keepClientOnly TagValue) l acc = Ok m ∧
    ∀ k, m !! k =
      if decide (clientOnlyName k ∧ is_Some (list_to_map (M := gmap string TagValue) l !! k))
      then list_to_map (M := gmap string TagValue) l !! k else acc !! k.
Proof.
  revert acc. induction l as [|[k0 v0] l IH]; intros acc Hnd.
  { exists acc. split; [done|]. intros k. rewrite decide_False; [done|].
    cbn. rewrite lookup_empty. by intros [_ [? ?]]. }
  apply NoDup_cons in Hnd as [Hk0 Hnd]. cbn [forRange keepClientOnly].
  rewrite isClientOnly_decide. cbn [obind].
  assert (Hnone : list_to_map (M := gmap string TagValue) l !! k0 = None)
    by by apply not_elem_of_list_to_map_1.
  case_bool_decide as Hp; cbn [obind].
  - destruct (IH (<[k0 := v0]> acc) Hnd) as (m & -> & Hm).
    exists m. split; [done|]. intros k. rewrite Hm. cbn [list_to_map foldr].
    destruct (decide (k = k0)) as [->|Hne].
    + rewrite Hnone, !lookup_insert_eq.
      rewrite decide_False by (by intros [_ [? ?]]).
      by rewrite decide_True by eauto.
    + rewrite !(lookup_insert_ne _ k0 k) by done. done.
  - destruct (IH acc Hnd) as (m & -> & Hm).
    exists m. split; [done|]. intros k. rewrite Hm. cbn [list_to_map foldr].
    destruct (decide (k = k0)) as [->|Hne].
    + rewrite Hnone. rewrite !decide_False; [done|by intros [? _]|].
      by intros [_ [? ?]].
    + by rewrite !(lookup_insert_ne _ k0 k) by done.
Qed.

(** The loop keeps the client-only tags, in whatever order it runs. *)
Lemma forRange_keepClientOnly_filter tags (order : list (string * TagValue)) :
  order ≡ₚ map_to_list tags →
  forRange (keepClientOnly TagValue) order ∅
  = Ok (filter (λ kv, clientOnlyName kv.1) tags).
Proof.
  intros Hperm.
  assert (Hnd : NoDup order.*1).
  { rewrite Hperm. apply NoDup_fst_map_to_list. }
  assert (Hmap : list_to_map order = tags).
  { rewrite (list_to_map_proper _ _ Hnd Hperm). apply list_to_map_to_list. }
  destruct (forRange_keepClientOnly order ∅ Hnd) as (m & -> & Hm).
  f_equal. apply map_eq. intros k. rewrite Hm, Hmap, lookup_empty.
  rewrite map_lookup_filter. destruct (tags !! k) as [v|] eqn:Hk; cbn.
  - case_decide as Hd.
    + by rewrite option_guard_True by (by destruct Hd).
    + rewrite option_guard_False; [done|]. cbn. intros ?. apply Hd. eauto.
  - by case_decide.
Qed.

(** X1: [GetClientOnlyTags] never panics and its result does not depend on
    the order in which the tags are enumerated: it returns the tags whose
    name is a plus sign followed by at least one more byte, with their
    values, and the nil pointer when there is no such tag (in particular for
    an empty map, and for the tag named by a lone plus sign). *)
Theorem GetClientOnlyTags_filter tags (order : list (string * TagValue)) :
  order ≡ₚ map_to_list tags →
  GetClientOnlyTags TagValue tags order =
  Ok (let kept := filter (λ kv, clientOnlyName kv.1) tags in
      if decide (kept = ∅) then None else Some kept).
Proof.
  intros Hperm. unfold GetClientOnlyTags.
  rewrite (forRange_keepClientOnly_filter _ _ Hperm). cbn [obind]. cbn zeta.
  case_decide as He.
  - rewrite He, map_size_empty. by destruct (Nat.ltb (size tags) 1).
  - assert (size tags ≠ 0) as Hs1.
    { intros ->%map_size_empty_iff. by rewrite map_filter_empty in He. }
    assert (size (filter (λ kv : string * TagValue, clientOnlyName kv.1) tags)
            ≠ 0) as Hs2 by by rewrite map_size_empty_iff.
    by destruct (size tags), (size (filter _ tags)).
Qed.

(** X2: applied to a result of its own, [GetClientOnlyTags] returns it
    again: a returned map holds client-only tags only, is never empty, and
    is a part of the tags it was taken from. *)
Theorem GetClientOnlyTags_idempotent tags (order order' : list (string * TagValue)) m :
  order ≡ₚ map_to_list tags →
  order' ≡ₚ map_to_list m →
  GetClientOnlyTags TagValue tags order = Ok (Some m) →
  GetClientOnlyTags TagValue m order' = Ok (Some m) ∧
  m ≠ ∅ ∧ m ⊆ tags ∧ ∀ name, is_Some (m !! name) → clientOnlyName name.
Proof.
  intros Hperm Hperm'. unfold GetClientOnlyTags.
  rewrite (forRange_keepClientOnly_filter _ _ Hperm),
    (forRange_keepClientOnly_filter _ _ Hperm'). cbn [obind].
  destruct (Nat.ltb (size tags) 1); [done|].
  destruct (Nat.ltb (size (filter _ tags)) 1) eqn:Hsize; [done|].
  intros [= Heq].
  assert (Hkeys : ∀ name, is_Some (m !! name) → clientOnlyName name).
  { intros name [v Hv]. rewrite <- Heq in Hv.
    by apply map_lookup_filter_Some in Hv as [_ ?]. }
  assert (Hid : filter (λ kv : string * TagValue, clientOnlyName kv.1) m = m).
  { apply map_filter_id. intros k v Hk. apply Hkeys. eauto. }
  rewrite Hid. rewrite Heq in Hsize. rewrite Hsize.
  destruct (size m) eqn:Hs; [done|]. cbn.
  split_and!; [done| |rewrite <- Heq; apply map_filter_subseteq|done].
  intros ->. by rewrite map_size_empty in Hs.
Qed.

End ClientOnlyTagsProofs.

Lemma GetClientOnlyTags_filter_witness :
  GetClientOnlyTags string ex_tags (map_to_list ex_tags)
  = Ok (Some {[ "+draft/reply" := "abc" ]}).
Proof.
  rewrite (GetClientOnlyTags_filter ex_tags (map_to_list ex_tags)
             (reflexivity _)).
  vm_compute. reflexivity.
Defined.

Lemma GetClientOnlyTags_idempotent_witness :
  GetClientOnlyTags string {[ "+draft/reply" := "abc" ]}
    [("+draft/reply", "abc")]
  = Ok (Some {[ "+draft/reply" := "abc" ]}).
Proof.
  apply (GetClientOnlyTags_idempotent ex_tags (map_to_list ex_tags)
           [("+draft/reply", "abc")] {[ "+draft/reply" := "abc" ]}).
  - reflexivity.
  - by rewrite map_to_list_singleton.
  - vm_compute. reflexivity.
Defined.

(** ** The operator-class resolver, further properties *)

Lemma tc_first_step {A} (R : relation A) x z :
  tc R x z → ∃ y, R x y ∧ rtc R y z.
Proof.
  destruct 1 as [x z Hxz|x y z Hxy Hyz].
  - exists z. by split.
  - exists y. split; [done|]. by apply tc_rtc.
Qed.

Lemma sn_not_cyclic {A} (R : relation A) x : sn R x → ¬ tc R x x.
Proof.
  induction 1 as [x _ IH]. intros Hcyc.
  destruct (tc_first_step _ _ _ Hcyc) as (y & Hxy & Hyx).
  apply (IH y Hxy). eapply tc_rtc_l; [exact Hyx|]. by apply tc_once.
Qed.

Lemma ex_mutual_cyclic : ¬ acyclic ex_mutual.
Proof.
  intros Hacyc. apply (Hacyc "a").
  apply tc_l with "b"; [|apply tc_once]; eexists; by split_and!.
Qed.

Section ResolverFurther.

Variable ToLower : string → string.
Variable conf : gmap string OperClassConfig.t.
Variable order : nat → list (string * OperClassConfig.t).
Hypothesis order_valid : valid_order conf order.

(** A returned map holds the assembled class of every name. *)
Lemma OperatorClasses_Ok_sound m :
  OperatorClasses ToLower conf order = Some (Ok m) →
  sound ToLower conf m ∧ dom m = dom conf.
Proof.
  intros Hr.
  destruct (OperatorClasses_run ToLower conf order order_valid)
    as (r & Hr' & Hrun).
  rewrite Hr in Hr'. injection Hr' as <-.
  exact (run_post _ _ _ order_valid _ _ _ _ (sound_empty _ _) Hrun).
Qed.

Lemma sound_complete_acyclic m :
  sound ToLower conf m → dom m = dom conf → acyclic conf.
Proof.
  intros Hs Hd name Hcyc.
  assert (is_Some (conf !! name)) as Hc.
  { destruct (tc_first_step _ _ _ Hcyc) as (y & (info & Hc & _) & _). eauto. }
  apply elem_of_dom in Hc. rewrite <- Hd in Hc.
  apply elem_of_dom in Hc as [oc Hoc].
  eapply sn_not_cyclic; [|exact Hcyc]. eapply resolves_sn, Hs, Hoc.
Qed.

Lemma sound_complete_no_dangling m :
  sound ToLower conf m → dom m = dom conf → no_dangling conf.
Proof.
  intros Hs Hd name info Hc Hne.
  destruct (conf !! OperClassConfig.Extends info) eqn:Hbase; [by eauto|].
  assert (is_Some (m !! name)) as [oc Hoc].
  { apply elem_of_dom. rewrite Hd. apply elem_of_dom. eauto. }
  destruct (resolves_not_dangling ToLower conf name oc info); [by apply Hs|].
  by split_and!.
Qed.

(** X3: the resolver returns a map of classes exactly for the sets that
    have no extends cycle, no dangling extends reference and no class
    without both title and whois line; the returned map then has a class for
    every name of the set and for no other name. *)
Theorem OperatorClasses_succeeds_iff :
  ((∃ m, OperatorClasses ToLower conf order = Some (Ok m)) ↔
   acyclic conf ∧ no_dangling conf ∧ titled conf) ∧
  (∀ m, OperatorClasses ToLower conf order = Some (Ok m) →
        dom m = dom conf).
Proof.
  split; [split|].
  - intros [m [Hs Hd]%OperatorClasses_Ok_sound]. split_and!.
    + by eapply sound_complete_acyclic.
    + by eapply sound_complete_no_dangling.
    + by eapply sound_complete_titled.
  - intros (Hacyc & Hnd & Htitled).
    destruct (OperatorClasses_acyclic_cases ToLower conf order order_valid
                Hacyc Hnd) as [(m & Hr & _)|[_ ?]]; [by eauto|done].
  - by intros m [_ ?]%OperatorClasses_Ok_sound.
Qed.

(** X4: in every map that the resolver returns, the capabilities of a class
    are those of the class itself and of the classes it reaches along
    extends edges, each with the value [true]; so a class has every
    capability of the class it extends. *)
Theorem OperatorClasses_capabilities m name oc :
  OperatorClasses ToLower conf order = Some (Ok m) →
  m !! name = Some oc →
  (∀ capab,
     (OperClass.Capabilities oc !! capab = Some true ↔
      granted conf name capab) ∧
     OperClass.Capabilities oc !! capab ≠ Some false) ∧
  (∀ base ob capab,
     extends_of conf name base → m !! base = Some ob →
     OperClass.Capabilities ob !! capab = Some true →
     OperClass.Capabilities oc !! capab = Some true).
Proof.
  intros [Hs _]%OperatorClasses_Ok_sound Hoc. split.
  - intros capab. by eapply resolves_caps, Hs.
  - intros base ob capab Hext Hob Hcap.
    apply (resolves_caps _ _ _ _ (Hs _ _ Hoc)).
    apply (resolves_caps _ _ _ _ (Hs _ _ Hob)) in Hcap
      as (a & ainfo & Hrtc & Ha & Hin).
    exists a, ainfo. split; [|done]. by eapply rtc_l.
Qed.

(** X5: in every map that the resolver returns, a class has the title of
    its record and a whois line that is not empty: the explicit one of the
    record, or the title after is a, which lower-casing of one character
    cannot turn into is an. *)
Theorem OperatorClasses_title_whois m name oc info :
  OperatorClasses ToLower conf order = Some (Ok m) →
  m !! name = Some oc → conf !! name = Some info →
  OperClass.Title oc = OperClassConfig.Title info ∧
  OperClass.WhoisLine oc ≠ "" ∧
  (OperClassConfig.WhoisLine info ≠ "" →
   OperClass.WhoisLine oc = OperClassConfig.WhoisLine info) ∧
  (OperClassConfig.WhoisLine info = "" →
   (∀ b, String.length (ToLower (string_of_byte b)) < 5) →
   OperClass.WhoisLine oc = "is a " +:+ OperClassConfig.Title info).
Proof.
  intros [Hs _]%OperatorClasses_Ok_sound Hoc Hc.
  assert (∃ w, whoisLine ToLower info = Ok w ∧
               OperClass.Title oc = OperClassConfig.Title info ∧
               OperClass.WhoisLine oc = w) as (w & Hw & Ht & <-).
  { destruct (Hs _ _ Hoc); simplify_eq; eauto. }
  split_and!; [done| | |].
  - unfold whoisLine in Hw.
    destruct (nonempty (OperClassConfig.WhoisLine info)) eqn:Hne.
    + apply nonempty_true in Hne. by injection Hw as <-.
    + destruct (index0 _); [|done]. injection Hw as <-.
      by destruct (strings_Contains _ _).
  - intros Hne%nonempty_true. unfold whoisLine in Hw. rewrite Hne in Hw.
    by injection Hw as <-.
  - intros Hempty Hshort.
    assert (OperClassConfig.Title info ≠ "") as Htitle.
    { intros Ht'. unfold whoisLine in Hw. by rewrite Hempty, Ht' in Hw. }
    rewrite (whoisLine_article _ _ Hshort Hempty Htitle) in Hw.
    by injection Hw as <-.
Qed.

(** X6: on a set in which every class has a title or a whois line, the
    resolver returns the looping-dependency error exactly when the set has
    an extends cycle and no dangling reference. *)
Theorem OperatorClasses_looping_iff :
  titled conf →
  (OperatorClasses ToLower conf order = Some (Err errLooping) ↔
   no_dangling conf ∧ ¬ acyclic conf).
Proof.
  intros Htitled.
  destruct (OperatorClasses_run ToLower conf order order_valid)
    as (r & Hr & Hrun).
  pose proof (run_post _ _ _ order_valid _ _ _ _ (sound_empty _ _) Hrun) as Hp.
  rewrite Hr. split.
  - intros [= ->]. destruct (decide (no_dangling conf)) as [Hnd|Hnd].
    + split; [done|]. intros Hacyc.
      eapply (run_acyclic _ _ _ order_valid);
        eauto using sound_empty; by rewrite map_size_empty.
    + apply map_not_Forall in Hnd as (name & info & Hc & Hdang); [|apply _].
      destruct (OperatorClasses_dangling ToLower conf order order_valid
                  name info) as [_ Hno].
      * split_and!; [done|by intros He; apply Hdang|].
        destruct (conf !! OperClassConfig.Extends info) eqn:Hb; [|done].
        destruct Hdang. eauto.
      * by rewrite Hr in Hno.
  - intros [Hnd Hcyc]. destruct r as [m|msg| |]; [| |done..].
    + destruct Hp as [Hs Hd]. destruct Hcyc.
      by eapply sound_complete_acyclic.
    + destruct Hp as [->|(name & info & (Hc & Hne & Hnone) & _)]; [done|].
      destruct (Hnd name info Hc Hne). congruence.
Qed.

(** X7: an error of the resolver other than the looping-dependency error
    names a class of the set and the class it extends, which is not in the
    set; and on a set in which every class has a title or a whois line such
    an error is returned whenever some class extends a class outside the
    set. *)
Theorem OperatorClasses_missing_base :
  (∀ msg, OperatorClasses ToLower conf order = Some (Err msg) →
     msg ≠ errLooping →
     ∃ name info, dangling conf name info ∧
       msg = errMissingBase name (OperClassConfig.Extends info)) ∧
  (titled conf → ∀ name info, dangling conf name info →
     ∃ name' info', dangling conf name' info' ∧
       OperatorClasses ToLower conf order
       = Some (Err (errMissingBase name' (OperClassConfig.Extends info')))).
Proof.
  split.
  - intros msg Hr Hne.
    destruct (OperatorClasses_run ToLower conf order order_valid)
      as (r & Hr' & Hrun).
    rewrite Hr in Hr'. injection Hr' as <-.
    by destruct (run_post _ _ _ order_valid _ _ _ _ (sound_empty _ _) Hrun).
  - intros Htitled name info Hd.
    by destruct (OperatorClasses_dangling ToLower conf order order_valid
                   name info Hd) as [[?|[_ ?]] _].
Qed.

(** X8: the outer loop of the resolver ends within two more entries than
    there are classes: with that much fuel or more the loop returns, and
    returns what [OperatorClasses] returns. *)
Theorem OperatorClasses_loop_bound fuel :
  size conf + 2 ≤ fuel →
  is_Some (OperatorClasses ToLower conf order) ∧
  OperatorClasses_loop ToLower conf order fuel 0 (-1) ∅
  = OperatorClasses ToLower conf order.
Proof.
  intros Hfuel.
  destruct (OperatorClasses_run ToLower conf order order_valid)
    as (r & Hr & _).
  rewrite Hr. split; [by eauto|].
  by apply (OperatorClasses_loop_fuel _ _ _ (size conf + 2)).
Qed.

End ResolverFurther.

Lemma ex_default_titled : titled ex_default.
Proof. apply (bool_decide_unpack _). vm_compute. exact I. Qed.

Lemma OperatorClasses_succeeds_iff_witness :
  ∃ m, OperatorClasses asciiToLower ex_default (enumerate ex_default)
       = Some (Ok m).
Proof.
  apply (proj1 (OperatorClasses_succeeds_iff asciiToLower ex_default
                  (enumerate ex_default) (enumerate_valid _))).
  split_and!;
    [exact ex_default_acyclic|exact ex_default_no_dangling
    |exact ex_default_titled].
Defined.

Lemma OperatorClasses_capabilities_witness :
  granted ex_default "server-admin" "oper:local_kill".
Proof.
  epose proof (OperatorClasses_capabilities asciiToLower ex_default
                 (enumerate ex_default) (enumerate_valid _) _ "server-admin" _
                 OperatorClasses_ex_default ltac:(vm_compute; reflexivity))
    as [Hcaps _].
  apply (Hcaps "oper:local_kill"). vm_compute. reflexivity.
Defined.

Lemma OperatorClasses_title_whois_witness :
  ∃ oc, OperClass.Title oc = "Local Operator" ∧
        OperClass.WhoisLine oc = "is a Local Operator".
Proof.
  epose proof (OperatorClasses_title_whois asciiToLower ex_default
                 (enumerate ex_default) (enumerate_valid _) _ "local-oper" _ _
                 OperatorClasses_ex_default ltac:(vm_compute; reflexivity)
                 ltac:(vm_compute; reflexivity))
    as (Ht & _ & _ & Hw).
  eexists. split; [exact Ht|].
  exact (Hw eq_refl asciiToLower_byte_short).
Defined.

Lemma OperatorClasses_looping_iff_witness :
  OperatorClasses asciiToLower ex_mutual (enumerate ex_mutual)
  = Some (Err errLooping).
Proof.
  apply (OperatorClasses_looping_iff asciiToLower ex_mutual
           (enumerate ex_mutual) (enumerate_valid _)).
  - apply (bool_decide_unpack _). vm_compute. exact I.
  - split; [|exact ex_mutual_cyclic].
    apply (bool_decide_unpack _). vm_compute. exact I.
Defined.

Lemma OperatorClasses_missing_base_witness :
  ∃ name info, dangling ex_mutual_dangling name info ∧
    OperatorClasses asciiToLower ex_mutual_dangling
      (enumerate ex_mutual_dangling)
    = Some (Err (errMissingBase name (OperClassConfig.Extends info))).
Proof.
  apply (proj2 (OperatorClasses_missing_base asciiToLower ex_mutual_dangling
                  (enumerate ex_mutual_dangling) (enumerate_valid _)))
    with "d" (OperClassConfig.mk "D" "" "ghost" []).
  - apply (bool_decide_unpack _). vm_compute. exact I.
  - by vm_compute.
Defined.

Lemma OperatorClasses_loop_bound_witness :
  OperatorClasses_loop asciiToLower ex_default (enumerate ex_default) 10 0
    (-1) ∅
  = OperatorClasses asciiToLower ex_default (enumerate ex_default).
Proof.
  apply (OperatorClasses_loop_bound asciiToLower ex_default
           (enumerate ex_default) (enumerate_valid _) 10).
  vm_compute. lia.
Defined.

(** ** The operator binder, further properties *)

Section BinderFurther.

Variable CasefoldName : string → string + string.
Variable DecodePasswordHash : string → list ascii + string.
Variable TrimSpace : string → string.
Variable oc : gmap string OperClass.t.

Abbreviation bindOper'' :=
  (bindOper CasefoldName DecodePasswordHash TrimSpace oc).

Abbreviation binds := (bindable CasefoldName DecodePasswordHash oc).

Lemma bindOper_Ok_iff entry operators :
  (∃ operators', bindOper'' entry operators = Ok operators') ↔ binds entry.
Proof.
  destruct entry as [name opConf]. unfold bindable, bindOper, PasswordBytes.
  cbn [fst snd].
  destruct (CasefoldName name) as [name'|err];
    [|split; [by intros [? ?]|by intros [[? ?] _]]].
  destruct (DecodePasswordHash _) as [pass|err]; cbn [obind];
    [|split; [by intros [? ?]|by intros (_ & [? ?] & _)]].
  destruct (oc !! _) as [class|];
    [|split; [by intros [? ?]|by intros (_ & _ & [? ?])]].
  split; eauto 10.
Qed.

(** What a step stores. *)
Lemma bindOper_Ok_fields name opConf operators operators' :
  bindOper'' (name, opConf) operators = Ok operators' →
  ∃ name' pass oper,
    CasefoldName name = inl name' ∧
    DecodePasswordHash (OperConfig.Password opConf) = inl pass ∧
    operators' = <[name' := oper]> operators ∧
    Oper.Pass oper = pass ∧ Oper.Vhost oper = OperConfig.Vhost opConf ∧
    Oper.Modes oper = TrimSpace (OperConfig.Modes opConf).
Proof.
  unfold bindOper, PasswordBytes.
  destruct (CasefoldName name) as [name'|err]; [|done].
  destruct (DecodePasswordHash _) as [pass|err]; cbn [obind]; [|done].
  destruct (oc !! _) as [class|]; [|done].
  intros [= <-]. by eexists name', pass, _.
Qed.

Lemma forRange_bindOper_binds before rest operators :
  Forall binds before →
  ∃ operators',
    forRange bindOper'' (before ++ rest) operators
    = forRange bindOper'' rest operators'.
Proof.
  revert operators. induction before as [|e before IH]; intros operators Hall.
  { by exists operators. }
  apply Forall_cons in Hall as [He Hall].
  apply (bindOper_Ok_iff e operators) in He as [ops1 Hops1].
  cbn [app forRange]. rewrite Hops1. cbn [obind]. by apply IH.
Qed.

(** X9: [Operators] stops at the first entry that does not bind, and that
    entry decides the result: the case-folding error when its name does not
    case-fold; otherwise the end of the process when its password hash does
    not decode; otherwise the unknown-class error with the case-folded name
    when its class is not known. The entries after it are not examined. *)
Theorem Operators_first_failure before name opConf after :
  Forall binds before →
  (∀ err, CasefoldName name = inr err →
     Operators CasefoldName DecodePasswordHash TrimSpace
       (before ++ (name, opConf) :: after) oc
     = Err (errCasefold err)) ∧
  (∀ name' err, CasefoldName name = inl name' →
     DecodePasswordHash (OperConfig.Password opConf) = inr err →
     Operators CasefoldName DecodePasswordHash TrimSpace
       (before ++ (name, opConf) :: after) oc
     = Fatal) ∧
  (∀ name' pass, CasefoldName name = inl name' →
     DecodePasswordHash (OperConfig.Password opConf) = inl pass →
     oc !! OperConfig.Class opConf = None →
     Operators CasefoldName DecodePasswordHash TrimSpace
       (before ++ (name, opConf) :: after) oc
     = Err (errUnknownClass name' (OperConfig.Class opConf))).
Proof.
  intros Hall. unfold Operators.
  destruct (forRange_bindOper_binds before ((name, opConf) :: after) ∅ Hall)
    as [ops ->].
  cbn [forRange]. unfold bindOper, PasswordBytes. split_and!.
  - by intros err ->.
  - by intros name' err -> ->.
  - by intros name' pass -> -> ->.
Qed.

Lemma forRange_bindOper_Ok_iff order operators :
  (∃ operators', forRange bindOper'' order operators = Ok operators') ↔
  Forall binds order.
Proof.
  revert operators. induction order as [|e order IH]; intros operators.
  { split; [by constructor|by eauto]. }
  cbn [forRange]. rewrite Forall_cons.
  destruct (bindOper'' e operators) as [ops1|msg| |] eqn:He; cbn [obind].
  - rewrite IH. split; [|by intros [_ ?]].
    intros Hall. split; [|done]. apply (bindOper_Ok_iff e operators). eauto.
  - split; [by intros [? ?]|].
    intros [[ops Hops]%(bindOper_Ok_iff e operators) _]. congruence.
  - split; [by intros [? ?]|].
    intros [[ops Hops]%(bindOper_Ok_iff e operators) _]. congruence.
  - split; [by intros [? ?]|].
    intros [[ops Hops]%(bindOper_Ok_iff e operators) _]. congruence.
Qed.

(** X10: [Operators] returns operators exactly when every entry binds: its
    name case-folds, its password hash decodes and its class is among the
    classes given; this does not depend on the order in which the entries
    are enumerated. *)
Theorem Operators_succeeds_iff order order' :
  order ≡ₚ order' →
  ((∃ operators,
      Operators CasefoldName DecodePasswordHash TrimSpace order oc
      = Ok operators) ↔
   Forall binds order) ∧
  ((∃ operators,
      Operators CasefoldName DecodePasswordHash TrimSpace order oc
      = Ok operators) ↔
   (∃ operators,
      Operators CasefoldName DecodePasswordHash TrimSpace order' oc
      = Ok operators)).
Proof.
  intros Hperm. unfold Operators. rewrite !forRange_bindOper_Ok_iff.
  split; [done|]. by rewrite Hperm.
Qed.

Lemma forRange_bindOper_keys order operators operators' :
  forRange bindOper'' order operators = Ok operators' →
  (∀ name', is_Some (operators' !! name') ↔
     is_Some (operators !! name') ∨
     ∃ name opConf, (name, opConf) ∈ order ∧ CasefoldName name = inl name') ∧
  (∀ name' oper, operators' !! name' = Some oper →
     operators !! name' = Some oper ∨
     ∃ name opConf pass,
       (name, opConf) ∈ order ∧ CasefoldName name = inl name' ∧
       DecodePasswordHash (OperConfig.Password opConf) = inl pass ∧
       Oper.Pass oper = pass ∧ Oper.Vhost oper = OperConfig.Vhost opConf ∧
       Oper.Modes oper = TrimSpace (OperConfig.Modes opConf)) ∧
  size operators' ≤ size operators + length order.
Proof.
  revert operators.
  induction order as [|[name opConf] order IH]; intros operators.
  { intros [= <-]. split_and!; [|by left|cbn; lia].
    intros name'. split; [by left|]. intros [?|(? & ? & Hin & _)]; [done|].
    by apply elem_of_nil in Hin. }
  cbn [forRange].
  destruct (bindOper'' (name, opConf) operators) as [ops1|msg| |] eqn:Hb;
    [|done..].
  cbn [obind]. intros Hrest.
  destruct (IH _ Hrest) as (Hkeys & Hfields & Hsize).
  apply bindOper_Ok_fields in Hb
    as (n' & pass & oper & Hn & Hp & -> & Hpass & Hvhost & Hmodes).
  split_and!.
  - intros name'. rewrite Hkeys. split.
    + intros [Hin|(n & c & Hin & Hc)].
      * destruct (decide (n' = name')) as [->|Hne].
        -- right. exists name, opConf. by split; [left|].
        -- rewrite lookup_insert_ne in Hin by done. by left.
      * right. exists n, c. by split; [right|].
    + intros [[o Ho]|(n & c & [[= -> ->]|Hin]%elem_of_cons & Hc)].
      * left. destruct (decide (n' = name')) as [->|Hne].
        -- rewrite lookup_insert_eq. eauto.
        -- rewrite lookup_insert_ne by done. eauto.
      * left. rewrite Hn in Hc. injection Hc as ->.
        rewrite lookup_insert_eq. eauto.
      * right. eauto.
  - intros name' o Ho.
    destruct (Hfields _ _ Ho) as [Hin|(n & c & p & Hin & ?)].
    + destruct (decide (n' = name')) as [->|Hne].
      * rewrite lookup_insert_eq in Hin. injection Hin as ->.
        right. exists name, opConf, pass. by split; [left|].
      * rewrite lookup_insert_ne in Hin by done. by left.
    + right. exists n, c, p. by split; [right|].
  - cbn [length]. destruct (operators !! n') as [o|] eqn:Ho.
    + rewrite map_size_insert_Some in Hsize by eauto. lia.
    + rewrite map_size_insert_None in Hsize by done. lia.
Qed.

(** X11: the keys of the map that [Operators] returns are the case-folded
    names of the entries; every operator of the map has the virtual host,
    the decoded password and the trimmed modes of an entry with its name;
    and the map holds no more operators than there are entries. *)
Theorem Operators_result order operators :
  Operators CasefoldName DecodePasswordHash TrimSpace order oc
    = Ok operators →
  (∀ name', is_Some (operators !! name') ↔
     ∃ name opConf, (name, opConf) ∈ order ∧ CasefoldName name = inl name') ∧
  (∀ name' oper, operators !! name' = Some oper →
     ∃ name opConf pass,
       (name, opConf) ∈ order ∧ CasefoldName name = inl name' ∧
       DecodePasswordHash (OperConfig.Password opConf) = inl pass ∧
       Oper.Pass oper = pass ∧ Oper.Vhost oper = OperConfig.Vhost opConf ∧
       Oper.Modes oper = TrimSpace (OperConfig.Modes opConf)) ∧
  size operators ≤ length order.
Proof.
  intros (Hkeys & Hfields & Hsize)%forRange_bindOper_keys. split_and!.
  - intros name'. rewrite Hkeys, lookup_empty. split; [|by right].
    by intros [[? ?]|?].
  - intros name' oper Ho. destruct (Hfields _ _ Ho) as [Hin|?]; [|done].
    by rewrite lookup_empty in Hin.
  - by rewrite map_size_empty in Hsize.
Qed.

End BinderFurther.

Lemma Operators_first_failure_witness :
  Operators ex_CasefoldName ex_DecodePasswordHash ex_TrimSpace
    [ex_dan; ex_eve; ex_bob] ex_classes
  = Fatal.
Proof.
  assert (Hdan : Forall (bindable ex_CasefoldName ex_DecodePasswordHash
                           ex_classes) [ex_dan]).
  { apply Forall_singleton. split_and!; [by eexists..|]. vm_compute. eauto. }
  exact (proj1 (proj2 (Operators_first_failure ex_CasefoldName
                         ex_DecodePasswordHash ex_TrimSpace ex_classes
                         [ex_dan] "Eve" ex_eve.2 [ex_bob] Hdan))
           "eve" "empty password" eq_refl eq_refl).
Defined.

Lemma Operators_succeeds_iff_witness :
  ∃ operators,
    Operators ex_CasefoldName ex_DecodePasswordHash ex_TrimSpace
      [ex_dan; ex_carol] ex_classes
    = Ok operators.
Proof.
  assert (Hall : Forall (bindable ex_CasefoldName ex_DecodePasswordHash
                           ex_classes) [ex_dan; ex_carol]).
  { apply Forall_cons_2; [|apply Forall_singleton].
    all: split_and!; [by eexists..|]; vm_compute; eauto. }
  exact (proj2 (proj1 (Operators_succeeds_iff ex_CasefoldName
                         ex_DecodePasswordHash ex_TrimSpace ex_classes
                         [ex_dan; ex_carol] [ex_carol; ex_dan]
                         (Permutation_swap _ _ _))) Hall).
Defined.

Lemma Operators_result_witness :
  ∃ name opConf, (name, opConf) ∈ [ex_dan] ∧ ex_CasefoldName name = inl "dan".
Proof.
  apply (proj1 (Operators_result ex_CasefoldName ex_DecodePasswordHash
                  ex_TrimSpace ex_classes [ex_dan] _ Operators_ex_dan)).
  vm_compute. eauto.
Defined.

(** X12: the two steps composed. When the resolver has returned classes for
    a set and the names of the operators case-fold and their password
    hashes decode, [Operators] binds the operators to these classes if
    every operator names a class of the set, and otherwise fails with the
    unknown-class error for an operator whose class is not in the set. *)
Theorem Operators_of_OperatorClasses ToLower conf corder
    CasefoldName DecodePasswordHash TrimSpace order m :
  valid_order conf corder →
  OperatorClasses ToLower conf corder = Some (Ok m) →
  Forall (λ e, (∃ name', CasefoldName e.1 = inl name') ∧
               (∃ pass,
                  DecodePasswordHash (OperConfig.Password e.2) = inl pass))
    order →
  (Forall (λ e, is_Some (conf !! OperConfig.Class e.2)) order →
   ∃ operators,
     Operators CasefoldName DecodePasswordHash TrimSpace order m
     = Ok operators) ∧
  (Exists (λ e, conf !! OperConfig.Class e.2 = None) order →
   ∃ name opConf name',
     (name, opConf) ∈ order ∧ CasefoldName name = inl name' ∧
     conf !! OperConfig.Class opConf = None ∧
     Operators CasefoldName DecodePasswordHash TrimSpace order m
     = Err (errUnknownClass name' (OperConfig.Class opConf))).
Proof.
  intros Hv [_ Hdom]%OperatorClasses_Ok_sound Hall; [|done].
  assert (Hkey : ∀ class, is_Some (m !! class) ↔ is_Some (conf !! class)).
  { intros class. by rewrite <- !elem_of_dom, Hdom. }
  split.
  - intros Hclasses.
    destruct (forRange_bindOper_binds CasefoldName DecodePasswordHash
                TrimSpace m order [] ∅) as [ops Hops].
    + apply Forall_forall. intros e He.
      destruct (proj1 (Forall_forall _ _) Hall e He) as [? ?].
      split_and!; [done..|]. apply Hkey.
      by apply (proj1 (Forall_forall _ _) Hclasses e He).
    + exists ops. unfold Operators. by rewrite <- (app_nil_r order), Hops.
  - intros Hex.
    destruct (forRange_bindOper_unknown_class CasefoldName DecodePasswordHash
                TrimSpace m order ∅ Hall)
      as (name & opConf & name' & Hin & Hn & Hnone & Hrun).
    + apply Exists_exists in Hex as (e & He & Hc). apply Exists_exists.
      exists e. split; [done|]. apply eq_None_not_Some. rewrite Hkey.
      by rewrite Hc; intros [? ?].
    + exists name, opConf, name'. split_and!; [done..| |done].
      apply eq_None_not_Some. rewrite <- Hkey. rewrite Hnone. by intros [? ?].
Qed.

Lemma Operators_of_OperatorClasses_witness :
  ∃ m operators,
    OperatorClasses asciiToLower ex_default (enumerate ex_default)
      = Some (Ok m) ∧
    Operators ex_CasefoldName ex_DecodePasswordHash ex_TrimSpace [ex_dan] m
      = Ok operators.
Proof.
  eexists.
  epose proof (proj1 (Operators_of_OperatorClasses asciiToLower ex_default
                        (enumerate ex_default) ex_CasefoldName
                        ex_DecodePasswordHash ex_TrimSpace [ex_dan] _
                        (enumerate_valid _) OperatorClasses_ex_default _) _)
    as [operators Hops].
  exists operators. split; [exact OperatorClasses_ex_default|exact Hops].
  Unshelve.
  - apply Forall_singleton. split; by eexists.
  - apply Forall_singleton. vm_compute. eauto.
Defined.

(** ** TLS listeners *)

Section TLSProofs.

Context {Certificate : Type}.
Variable LoadX509KeyPair : string → string → Certificate + string.
Variable CasefoldName : string → string + string.

Abbreviation addListener' := (addListener Certificate LoadX509KeyPair CasefoldName).
Abbreviation TLSListeners' := (TLSListeners Certificate LoadX509KeyPair CasefoldName).

Abbreviation unloadable := (unloadablePair Certificate LoadX509KeyPair).

Lemma addListener_cases s conf tlsListeners :
  (unloadable (s, conf) ∧ addListener' (s, conf) tlsListeners = Fatal) ∨
  (∃ cert, LoadX509KeyPair (TLSListenConfig.Cert conf)
             (TLSListenConfig.Key conf) = inl cert ∧
     ((∃ name, CasefoldName s = inl name ∧
         addListener' (s, conf) tlsListeners
         = Ok (<[name := mkTlsConfig [cert]]> tlsListeners)) ∨
      (∃ err, CasefoldName s = inr err ∧
         addListener' (s, conf) tlsListeners = Ok tlsListeners))).
Proof.
  unfold unloadablePair, addListener, TLSListenConfig_Config. cbn [snd].
  destruct (LoadX509KeyPair _ _) as [cert|err]; [right|left; by eauto].
  exists cert. split; [done|]. destruct (CasefoldName s); eauto.
Qed.

Lemma forRange_addListener order tlsListeners :
  (Exists unloadable order ∧
   forRange addListener' order tlsListeners = Fatal) ∨
  (¬ Exists unloadable order ∧
   ∃ m, forRange addListener' order tlsListeners = Ok m ∧
     (∀ name, is_Some (m !! name) ↔
        is_Some (tlsListeners !! name) ∨
        ∃ s conf, (s, conf) ∈ order ∧ CasefoldName s = inl name) ∧
     (∀ name config, m !! name = Some config →
        tlsListeners !! name = Some config ∨
        ∃ s conf cert,
          (s, conf) ∈ order ∧ CasefoldName s = inl name ∧
          LoadX509KeyPair (TLSListenConfig.Cert conf)
            (TLSListenConfig.Key conf) = inl cert ∧
          Certificates config = [cert])).
Proof.
  revert tlsListeners.
  induction order as [|[s conf] order IH]; intros tlsListeners.
  { right. split; [by intros ?%Exists_nil|]. exists tlsListeners.
    split_and!; [done| |by left].
    intros name. split; [by left|]. intros [?|(? & ? & Hin & _)]; [done|].
    by apply elem_of_nil in Hin. }
  cbn [forRange].
  destruct (addListener_cases s conf tlsListeners)
    as [[Hun ->]|(cert & Hload & Hstep)].
  { left. split; [by left|done]. }
  assert (Hnot : ¬ unloadable (s, conf)).
  { intros [err Herr]. cbn [snd] in Herr. congruence. }
  assert (Hex : ∀ P : Prop, (Exists unloadable order ∧ P) →
                            Exists unloadable ((s, conf) :: order) ∧ P).
  { intros P [? ?]. split; [by right|done]. }
  assert (Hnex : ¬ Exists unloadable order →
                 ¬ Exists unloadable ((s, conf) :: order)).
  { by intros ? [?|?]%Exists_cons. }
  destruct Hstep as [(name0 & Hfold & ->)|(err & Hfold & ->)]; cbn [obind].
  - destruct (IH (<[name0 := mkTlsConfig [cert]]> tlsListeners))
      as [?|(Hno & m & -> & Hkeys & Hvals)]; [left; by apply Hex|right].
    split; [by apply Hnex|]. exists m. split_and!; [done| |].
    + intros name. rewrite Hkeys. split.
      * intros [Hin|(s' & c' & Hin & ?)].
        -- destruct (decide (name0 = name)) as [->|Hne].
           ++ right. exists s, conf. by split; [left|].
           ++ rewrite lookup_insert_ne in Hin by done. by left.
        -- right. exists s', c'. by split; [right|].
      * intros [[c Hc]|(s' & c' & [[= -> ->]|Hin]%elem_of_cons & Hs')].
        -- left. destruct (decide (name0 = name)) as [->|Hne].
           ++ rewrite lookup_insert_eq. eauto.
           ++ rewrite lookup_insert_ne by done. eauto.
        -- left. rewrite Hfold in Hs'. injection Hs' as ->.
           rewrite lookup_insert_eq. eauto.
        -- right. eauto.
    + intros name config Hm.
      destruct (Hvals _ _ Hm) as [Hin|(s' & c' & k & Hin & ?)].
      * destruct (decide (name0 = name)) as [->|Hne].
        -- rewrite lookup_insert_eq in Hin. injection Hin as <-.
           right. exists s, conf, cert. by split; [left|].
        -- rewrite lookup_insert_ne in Hin by done. by left.
      * right. exists s', c', k. by split; [right|].
  - destruct (IH tlsListeners)
      as [?|(Hno & m & -> & Hkeys & Hvals)]; [left; by apply Hex|right].
    split; [by apply Hnex|]. exists m. split_and!; [done| |].
    + intros name. rewrite Hkeys. split.
      * intros [?|(s' & c' & Hin & ?)]; [by left|right].
        exists s', c'. by split; [right|].
      * intros [?|(s' & c' & [[= -> ->]|Hin]%elem_of_cons & Hs')];
          [by left|congruence|right; by eauto].
    + intros name config Hm.
      destruct (Hvals _ _ Hm) as [?|(s' & c' & k & Hin & ?)]; [by left|].
      right. exists s', c', k. by split; [right|].
Qed.


(** X14: the keys of the map that [TLSListeners] returns are the
    case-folded names of the listeners whose names case-fold; a listener
    whose name does not case-fold is left out without failing the call; and
    every configuration of the map holds exactly the one certificate loaded
    from the files of a listener with that name. *)
Theorem TLSListeners_result order m :
  TLSListeners Certificate LoadX509KeyPair CasefoldName order = Ok m →
  (∀ name, is_Some (m !! name) ↔
     ∃ s conf, (s, conf) ∈ order ∧ CasefoldName s = inl name) ∧
  (∀ name config, m !! name = Some config →
     ∃ s conf cert,
       (s, conf) ∈ order ∧ CasefoldName s = inl name ∧
       LoadX509KeyPair (TLSListenConfig.Cert conf)
         (TLSListenConfig.Key conf) = inl cert ∧
       Certificates config = [cert]).
Proof.
  unfold TLSListeners.
  destruct (forRange_addListener order ∅)
    as [[_ ->]|(_ & m' & -> & Hkeys & Hvals)]; [done|].
  intros [= <-]. split.
  - intros name. rewrite Hkeys, lookup_empty. split; [|by right].
    by intros [[? ?]|?].
  - intros name config Hm. destruct (Hvals _ _ Hm) as [Hin|?]; [|done].
    by rewrite lookup_empty in Hin.
Qed.

End TLSProofs.


Lemma TLSListeners_result_witness :
  ∃ s conf, (s, conf) ∈ ex_listeners ∧ ex_CasefoldName s = inl ":6697".
Proof.
  assert (Hok : TLSListeners string ex_LoadX509KeyPair ex_CasefoldName
                  ex_listeners
                = Ok {[ ":6697" := mkTlsConfig ["certificate"] ]}).
  { vm_compute. reflexivity. }
  apply (proj1 (TLSListeners_result ex_LoadX509KeyPair ex_CasefoldName
                  ex_listeners _ Hok)).
  vm_compute. eauto.
Defined.

(** ** Logging directives, further properties *)

(** The loop over the type tokens never reads out of range. It fails with
    the bare-exclusion error exactly when some token is a lone minus sign;
    otherwise it appends the tokens to the two lists. *)
Lemma parseType_tokens toks types excluded :
  forRange parseType toks (types, excluded) =
  if decide ("-" ∈ toks) then Err errBareExclusion
  else Ok (types ++ filter (λ t, includedType t = true) toks,
           excluded ++ omap excludedType toks).
Proof.
  revert types excluded.
  induction toks as [|t toks IH]; intros types excluded.
  { cbn. rewrite decide_False by apply not_elem_of_nil.
    by rewrite !app_nil_r. }
  cbn [forRange]. unfold parseType at 1.
  destruct t as [|c rest].
  { cbn [nonempty String.eqb negb obind]. rewrite IH.
    destruct (decide ("-" ∈ toks)) as [Hin|Hin].
    - rewrite decide_True; [done|by right].
    - rewrite decide_False; [done|]. by intros [?|?]%elem_of_cons. }
  change (negb (nonempty (String c rest))) with false. cbv iota.
  destruct (String.eqb_spec (String c rest) "-") as [->|Hne].
  { rewrite decide_True; [done|by left]. }
  cbn [index0 String.get slice1 obind].
  assert (Hdec : ∀ X Y : outcome (list string * list string),
    (if decide ("-" ∈ toks) then X else Y)
    = if decide ("-" ∈ String c rest :: toks) then X else Y).
  { intros X Y. destruct (decide ("-" ∈ toks)) as [Hin|Hin].
    - rewrite decide_True; [done|by right].
    - rewrite decide_False; [done|]. by intros [?|?]%elem_of_cons. }
  destruct (Ascii.eqb c "-") eqn:Hc; cbn [obind]; rewrite IH, <- Hdec.
  - case_decide; [done|].
    change (omap excludedType (String c rest :: toks))
      with (match excludedType (String c rest) with
            | Some y => y :: omap excludedType toks
            | None => omap excludedType toks
            end).
    cbn [excludedType]. rewrite Hc.
    rewrite filter_cons_False by (cbn; rewrite Hc; done).
    by rewrite <- app_assoc.
  - case_decide; [done|].
    change (omap excludedType (String c rest :: toks))
      with (match excludedType (String c rest) with
            | Some y => y :: omap excludedType toks
            | None => omap excludedType toks
            end).
    cbn [excludedType]. rewrite Hc.
    rewrite filter_cons_True by (cbn; rewrite Hc; done).
    by rewrite <- app_assoc.
Qed.

Section LoggingFurther.

Variable ToLower : string → string.
Variable LogLevelNames : gmap string Z.

Abbreviation normalize := (normalizeLogConfig ToLower LogLevelNames).

Abbreviation hasToken := (methodToken ToLower).

Lemma hasMethod_hasToken logConfig name :
  hasMethod (parseMethods ToLower (LoggingConfig.Method logConfig)) name = true
  ↔ hasToken logConfig name.
Proof. apply hasMethod_parseMethods. Qed.

Lemma fileBad_iff logConfig :
  hasMethod (parseMethods ToLower (LoggingConfig.Method logConfig)) "file"
  && String.eqb (LoggingConfig.Filename logConfig) "" = true ↔
  hasToken logConfig "file" ∧ LoggingConfig.Filename logConfig = "".
Proof. by rewrite andb_true_iff, hasMethod_hasToken, String.eqb_eq. Qed.

(** X15: a directive that normalization returns keeps its four strings as
    written; its sink flags are set exactly for the method tokens that
    lower-case to file, stdout and stderr; with the file flag it has a
    filename; its level is the entry of the level table for the lower-cased
    level string; its type tokens hold no lone minus sign; the tokens that
    do not start with a minus sign are appended to its included types and
    the remainders of those that do to its excluded types, in the order of
    the tokens and without the empty tokens that repeated spaces leave; and
    its included types are not empty. *)
Theorem normalizeLogConfig_Ok logConfig logConfig' :
  normalize logConfig = Ok logConfig' →
  let toks := strings_Split (LoggingConfig.TypeString logConfig) " " in
  ((LoggingConfig.Method logConfig' = LoggingConfig.Method logConfig ∧
   LoggingConfig.Filename logConfig' = LoggingConfig.Filename logConfig ∧
   LoggingConfig.TypeString logConfig' = LoggingConfig.TypeString logConfig ∧
   LoggingConfig.LevelString logConfig' = LoggingConfig.LevelString logConfig) ∧
  ((LoggingConfig.MethodFile logConfig' = true ↔ hasToken logConfig "file") ∧
   (LoggingConfig.MethodStdout logConfig' = true ↔ hasToken logConfig "stdout") ∧
   (LoggingConfig.MethodStderr logConfig' = true ↔ hasToken logConfig "stderr")) ∧
  (LoggingConfig.MethodFile logConfig' = true →
   LoggingConfig.Filename logConfig' ≠ "") ∧
  LogLevelNames !! ToLower (LoggingConfig.LevelString logConfig)
    = Some (LoggingConfig.Level logConfig') ∧
  ("-" ∉ toks) ∧
  LoggingConfig.Types logConfig'
    = LoggingConfig.Types logConfig
      ++ filter (λ t, includedType t = true) toks ∧
  LoggingConfig.ExcludedTypes logConfig'
    = LoggingConfig.ExcludedTypes logConfig ++ omap excludedType toks ∧
  LoggingConfig.Types logConfig' ≠ []).
Proof.
  unfold normalizeLogConfig. rewrite parseType_tokens.
  destruct (hasMethod _ "file" && _) eqn:Hfile; [done|].
  destruct (LogLevelNames !! _) as [level|] eqn:Hlevel; [|done].
  case_decide as Hbare; [done|]. cbn [obind fst snd].
  destruct (Nat.ltb _ 1) eqn:Hlen; [done|]. intros [= <-]. cbn.
  split_and!; try done; try apply hasMethod_hasToken.
  - intros Hf. rewrite Hf in Hfile. cbn in Hfile.
    by apply String.eqb_neq in Hfile.
  - intros Hnil. by rewrite Hnil in Hlen.
Qed.

Lemma normalizeLogConfig_returns logConfig :
  normalize logConfig ≠ Panic ∧ normalize logConfig ≠ Fatal.
Proof.
  unfold normalizeLogConfig. rewrite parseType_tokens.
  destruct (_ && _); [done|]. destruct (LogLevelNames !! _); [|done].
  case_decide; [done|]. cbn [obind]. by destruct (Nat.ltb _ _).
Qed.

(** X16: a directive is checked in the order file method, level, type
    tokens, included types, and the first check that fails gives the error:
    the file error for the file method without filename; else the level
    error, with the level string as written, for a level that is not in the
    table; else the bare-exclusion error for a type token that is a lone
    minus sign, wherever it stands; else the no-types error when no
    included type is left. Normalization never panics and never ends the
    process. *)
Theorem normalizeLogConfig_errors logConfig :
  let toks := strings_Split (LoggingConfig.TypeString logConfig) " " in
  let fileBad :=
    hasToken logConfig "file" ∧ LoggingConfig.Filename logConfig = "" in
  ((fileBad → normalize logConfig = Err errFileNoFilename) ∧
  (¬ fileBad →
   LogLevelNames !! ToLower (LoggingConfig.LevelString logConfig) = None →
   normalize logConfig = Err (errLevel (LoggingConfig.LevelString logConfig))) ∧
  (¬ fileBad →
   is_Some (LogLevelNames !! ToLower (LoggingConfig.LevelString logConfig)) →
   "-" ∈ toks →
   normalize logConfig = Err errBareExclusion) ∧
  (¬ fileBad →
   is_Some (LogLevelNames !! ToLower (LoggingConfig.LevelString logConfig)) →
   "-" ∉ toks →
   LoggingConfig.Types logConfig ++ filter (λ t, includedType t = true) toks
     = [] →
   normalize logConfig = Err errNoTypes) ∧
  normalize logConfig ≠ Panic ∧ normalize logConfig ≠ Fatal).
Proof.
  cbn zeta. unfold normalizeLogConfig. rewrite parseType_tokens.
  destruct (hasMethod _ "file" && _) eqn:Hfile.
  { apply fileBad_iff in Hfile. by split_and!. }
  assert (Hgood : ¬ (hasToken logConfig "file" ∧
                     LoggingConfig.Filename logConfig = "")).
  { intros ?%fileBad_iff. congruence. }
  split_and!; [done| | | | |].
  - by intros _ ->.
  - intros _ [level ->] Hin. by rewrite decide_True.
  - intros _ [level ->] Hin Hnil. rewrite decide_False by done.
    cbn [obind fst]. by rewrite Hnil.
  - destruct (LogLevelNames !! _); [|done]. case_decide; [done|].
    cbn [obind]. by destruct (Nat.ltb _ _).
  - destruct (LogLevelNames !! _); [|done]. case_decide; [done|].
    cbn [obind]. by destruct (Nat.ltb _ _).
Qed.

Lemma forRange_normalize logging acc out :
  (forRange (λ logConfig newLogConfigs,
               logConfig' ←! normalize logConfig;
               Ok ((newLogConfigs ++ [logConfig'])%list)) logging acc
   = Ok out ↔
   ∃ rest, out = acc ++ rest ∧
     Forall2 (λ logConfig logConfig', normalize logConfig = Ok logConfig')
       logging rest) ∧
  forRange (λ logConfig newLogConfigs,
              logConfig' ←! normalize logConfig;
              Ok ((newLogConfigs ++ [logConfig'])%list)) logging acc
  ≠ Panic.
Proof.
  revert acc. induction logging as [|lc logging IH]; intros acc.
  { cbn. split; [|done]. split.
    - intros [= <-]. exists []. by rewrite app_nil_r.
    - intros (rest & -> & ->%Forall2_nil_inv_l). by rewrite app_nil_r. }
  cbn [forRange].
  destruct (normalize lc) as [lc'|msg| |] eqn:Hlc; cbn [obind].
  - destruct (IH (acc ++ [lc'])) as [IHiff IHp]. split; [|done].
    rewrite IHiff. split.
    + intros (rest & -> & Hrest). exists (lc' :: rest).
      rewrite <- app_assoc. split; [done|]. by constructor.
    + intros (rest & -> & (lc'' & rest' & Hlc' & Hrest & ->)%Forall2_cons_inv_l).
      exists rest'. rewrite <- app_assoc.
      rewrite Hlc in Hlc'. injection Hlc' as ->. done.
  - split; [|done]. split; [done|].
    intros (rest & _ & (? & ? & ? & _)%Forall2_cons_inv_l). congruence.
  - exfalso. by destruct (normalizeLogConfig_returns lc).
  - exfalso. by destruct (normalizeLogConfig_returns lc).
Qed.

Lemma normalizeLogging_Ok_iff logging out :
  normalizeLogging ToLower LogLevelNames logging = Ok out ↔
  Forall2 (λ logConfig logConfig', normalize logConfig = Ok logConfig')
    logging out.
Proof.
  unfold normalizeLogging. rewrite (proj1 (forRange_normalize logging [] out)).
  split; [by intros (rest & -> & ?)|]. intros ?. by exists out.
Qed.

(** X17: the loop over the directives returns a list exactly when every
    directive is normalized, and that list holds the normalized directives
    in the order of the directives, one for each; it never panics. *)
Theorem normalizeLogging_Forall2 logging out :
  (normalizeLogging ToLower LogLevelNames logging = Ok out ↔
   Forall2 (λ logConfig logConfig', normalize logConfig = Ok logConfig')
     logging out) ∧
  (normalizeLogging ToLower LogLevelNames logging = Ok out →
   length out = length logging) ∧
  normalizeLogging ToLower LogLevelNames logging ≠ Panic.
Proof.
  split_and!.
  - apply normalizeLogging_Ok_iff.
  - intros Hok%normalizeLogging_Ok_iff. symmetry. by eapply Forall2_length.
  - unfold normalizeLogging. apply forRange_normalize. exact [].
Qed.

End LoggingFurther.

Lemma normalizeLogConfig_Ok_witness :
  methodToken asciiToLower
    (rawLogConfig "File  STDERR" "ircd.log" "accounts  -userinput -x" "Info")
    "file".
Proof.
  assert (Hok :
    normalizeLogConfig asciiToLower ex_LogLevelNames
      (rawLogConfig "File  STDERR" "ircd.log" "accounts  -userinput -x" "Info")
    = Ok (LoggingConfig.mk "File  STDERR" false true true "ircd.log"
            "accounts  -userinput -x" ["accounts"] ["userinput"; "x"]
            "Info" 1)).
  { vm_compute. reflexivity. }
  destruct (normalizeLogConfig_Ok asciiToLower ex_LogLevelNames _ _ Hok)
    as (_ & (Hfile & _) & _).
  by apply Hfile.
Defined.

Lemma normalizeLogConfig_errors_witness :
  normalizeLogConfig asciiToLower ex_LogLevelNames
    (rawLogConfig "stdout" "" "accounts - opers" "debug")
  = Err errBareExclusion.
Proof.
  destruct (normalizeLogConfig_errors asciiToLower ex_LogLevelNames
              (rawLogConfig "stdout" "" "accounts - opers" "debug"))
    as (_ & _ & Hbare & _).
  apply Hbare.
  - intros [(tok & Hin & _ & Hfile) _]. vm_compute in Hin.
    apply list_elem_of_singleton in Hin. by subst.
  - vm_compute. eauto.
  - vm_compute. apply list_elem_of_further, list_elem_of_here.
Defined.

Lemma normalizeLogging_Forall2_witness :
  ∃ out,
    normalizeLogging asciiToLower ex_LogLevelNames
      [rawLogConfig "stderr" "" "*" "warn";
       rawLogConfig "file" "ircd.log" "* -userinput" "debug"]
    = Ok out ∧ length out = 2.
Proof.
  eexists. split.
  - apply (proj1 (normalizeLogging_Forall2 asciiToLower ex_LogLevelNames
                    _ _)).
    repeat constructor; vm_compute; reflexivity.
  - reflexivity.
Defined.

(** ** [LoadConfig] *)

Section LoadConfigProofs.

Context {cloakConfig IP : Type}.
Variable ReadFile : string → string + string.
Variable Unmarshal : string → option (Config.t cloakConfig) + string.
Variable IsHostname : string → bool.
Variable custime_ParseDuration : string → Z + string.
Variable time_ParseDuration : string → Z + string.
Variable ParseIP : string → IP.
Variable cloak_Enabled : cloakConfig → bool.
Variable cloak_IPv4 : IP → cloakConfig → string + string.
Variable bytefmt_ToBytes : string → N + string.
Variable ToLower : string → string.
Variable LogLevelNames : gmap string Z.

Abbreviation validate :=
  (validateConfig cloakConfig IP IsHostname custime_ParseDuration
     time_ParseDuration ParseIP cloak_Enabled cloak_IPv4 bytefmt_ToBytes
     ToLower LogLevelNames).
Abbreviation accepted' :=
  (accepted cloakConfig IP IsHostname custime_ParseDuration
     time_ParseDuration ParseIP cloak_Enabled cloak_IPv4 bytefmt_ToBytes
     ToLower LogLevelNames).
Abbreviation Load :=
  (LoadConfig cloakConfig IP ReadFile Unmarshal IsHostname
     custime_ParseDuration time_ParseDuration ParseIP cloak_Enabled
     cloak_IPv4 bytefmt_ToBytes ToLower LogLevelNames).

Lemma normalizeLogging_total logging :
  Forall (λ logConfig, ∃ logConfig',
            normalizeLogConfig ToLower LogLevelNames logConfig = Ok logConfig')
    logging ↔
  ∃ out, normalizeLogging ToLower LogLevelNames logging = Ok out.
Proof.
  split.
  - intros Hall.
    assert (∃ out, Forall2 (λ lc lc',
              normalizeLogConfig ToLower LogLevelNames lc = Ok lc')
              logging out) as [out Hout].
    { induction Hall as [|lc logging [lc' Hlc] _ [out IH]].
      - by exists [].
      - exists (lc' :: out). by constructor. }
    exists out. by apply normalizeLogging_Ok_iff.
  - intros [out Hout%normalizeLogging_Ok_iff].
    induction Hout; constructor; eauto.
Qed.

Ltac destruct_config config :=
  destruct config as
    [nn cl [[pc] pw nm li ws tl [se sd sds sp spr] ci motd mqs mqb
              [te t4 t6 tc tds td tbs tb tbm tex]]
        dp ocs ops lg [la lcl lch lk lm ln lt lw [ltags lrest]]].

Ltac bool_facts :=
  repeat match goal with
  | H : (_ || _) = false |- _ => apply orb_false_iff in H as [? ?]
  | H : negb _ = false |- _ => apply negb_false_iff in H
  | H : negb _ = true |- _ => apply negb_true_iff in H
  | H : String.eqb _ _ = false |- _ => apply String.eqb_neq in H
  | H : String.eqb _ _ = true |- _ => apply String.eqb_eq in H
  | H : N.ltb _ _ = false |- _ => apply N.ltb_ge in H
  | H : Z.ltb _ _ = false |- _ => apply Z.ltb_ge in H
  | H : Nat.eqb _ _ = false |- _ => apply Nat.eqb_neq in H
  end.

(** The successful runs of the checks, case by case. *)
Ltac validate_cases Hc out Hlog :=
  unfold validateConfig, copyPassword, limitsTooLow, checkSTS,
    checkCloaking, checkThrottle in Hc;
  cbn -[normalizeLogging] in Hc;
  repeat (case_match; try done; cbn -[normalizeLogging] in * );
  match type of Hc with
  | context [normalizeLogging ?f ?t ?l] =>
      destruct (normalizeLogging f t l) as [out| | |] eqn:Hlog;
      cbn in Hc; try done
  end;
  injection Hc as <-; bool_facts.

Lemma validateConfig_accepted config c :
  validate config = Ok c → accepted' config.
Proof.
  intros Hc. destruct_config config. unfold accepted.
  validate_cases Hc out Hlog; cbn.
  all: split_and!; try done; try lia; try (by intros [=]); eauto.
  all: try (by destruct li).
  all: try (apply normalizeLogging_total; by eauto).
  all: try (intros _; split; [by eauto|lia]).
  all: try (intros _; split; by eauto).
  all: intros; congruence.
Qed.

Lemma validateConfig_complete config :
  accepted' config → ∃ c, validate config = Ok c.
Proof.
  destruct_config config. unfold accepted. cbn.
  intros (Hnn & Hnm & Hhost & Hdp & Hli & (Hl1 & Hl2 & Hl3 & Hl4 & Hl5)
          & Hsts & Hcl & Hth & [Ht Hr] & Hlog & [n Hn]).
  apply normalizeLogging_total in Hlog as [out Hlog].
  apply String.eqb_neq in Hnn, Hnm, Hdp.
  apply N.ltb_ge in Hl1, Hl2, Hl3, Hl4, Hl5. apply Z.ltb_ge in Ht, Hr.
  unfold validateConfig, copyPassword, limitsTooLow, checkSTS,
    checkCloaking, checkThrottle.
  destruct li as [|l0 li]; [done|].
  cbn -[normalizeLogging].
  destruct (negb (String.eqb pw "")); cbn -[normalizeLogging].
  all: rewrite Hnn, Hnm, Hhost, Hdp, Hl1, Hl2, Hl3, Hl4, Hl5;
    cbn -[normalizeLogging].
  all: destruct se; [destruct (Hsts eq_refl) as [[d ->] [Hp1 Hp2]];
                     apply Z.ltb_ge in Hp1, Hp2; rewrite Hp1, Hp2|];
    cbn -[normalizeLogging].
  all: destruct (cloak_Enabled cl);
    [destruct (Hcl eq_refl) as [cloaked ->]|]; cbn -[normalizeLogging].
  all: destruct te; [destruct (Hth eq_refl) as [[d1 ->] [b1 ->]]|];
    cbn -[normalizeLogging].
  all: rewrite Ht, Hr, Hlog; cbn; rewrite Hn; eauto.
Qed.

Lemma normalizeLogging_returns logging :
  normalizeLogging ToLower LogLevelNames logging ≠ Panic ∧
  normalizeLogging ToLower LogLevelNames logging ≠ Fatal.
Proof.
  unfold normalizeLogging. generalize (@nil LoggingConfig.t) at 2 4.
  induction logging as [|lc logging IH]; intros acc; [done|].
  cbn [forRange].
  destruct (normalizeLogConfig_returns ToLower LogLevelNames lc).
  destruct (normalizeLogConfig ToLower LogLevelNames lc); cbn [obind];
    [apply IH|done..].
Qed.

Lemma validateConfig_returns config :
  validate config ≠ Panic ∧ validate config ≠ Fatal.
Proof.
  destruct (normalizeLogging_returns (Config.Logging config)) as [Hp Hf].
  destruct_config config. cbn -[normalizeLogging] in Hp, Hf.
  unfold validateConfig, copyPassword, limitsTooLow, checkSTS,
    checkCloaking, checkThrottle.
  cbn -[normalizeLogging].
  repeat (case_match; try done; cbn -[normalizeLogging] in * ).
  all: destruct (normalizeLogging ToLower LogLevelNames lg); cbn; try done.
Qed.

Lemma normalizeLogConfig_Ok_sinks logConfig logConfig' :
  normalizeLogConfig ToLower LogLevelNames logConfig = Ok logConfig' →
  LoggingConfig.Types logConfig' ≠ [] ∧
  (LoggingConfig.MethodFile logConfig' = true →
   LoggingConfig.Filename logConfig' ≠ "").
Proof.
  unfold normalizeLogConfig. rewrite parseType_tokens.
  destruct (hasMethod _ "file" && _) eqn:Hfile; [done|].
  destruct (LogLevelNames !! _) as [level|]; [|done].
  case_decide; [done|]. cbn [obind fst snd].
  destruct (Nat.ltb _ 1) eqn:Hlen; [done|]. intros [= <-]. cbn. split.
  - intros Hnil. by rewrite Hnil in Hlen.
  - intros Hf. rewrite Hf in Hfile. by apply String.eqb_neq in Hfile.
Qed.

(** X18: after the document is read and parsed, [LoadConfig] returns a
    configuration exactly when the network name, the server name and the
    datastore path are not empty, the server name is a hostname, there is a
    listening address, the five length limits reach their minimums, both
    line lengths are at least 512, every logging directive is normalized
    and the send-queue size parses, and, for each of STS, cloaking and
    throttling that is enabled, its own fields are valid. The fields of a
    disabled feature are not examined. *)
Theorem validateConfig_succeeds_iff config :
  (∃ c, validateConfig cloakConfig IP IsHostname custime_ParseDuration
          time_ParseDuration ParseIP cloak_Enabled cloak_IPv4 bytefmt_ToBytes
          ToLower LogLevelNames config = Ok c) ↔
  accepted cloakConfig IP IsHostname custime_ParseDuration time_ParseDuration
    ParseIP cloak_Enabled cloak_IPv4 bytefmt_ToBytes ToLower LogLevelNames
    config.
Proof.
  split.
  - intros [c Hc]. by eapply validateConfig_accepted.
  - apply validateConfig_complete.
Qed.

(** X19: a returned configuration has the fields of the parsed one, but
    for those that [LoadConfig] computes: the password of [PassConfig] when
    the server password is set, the parsed durations of an STS or throttle
    section that is enabled, the logging directives and the send-queue size
    in bytes. *)
Theorem validateConfig_keeps config c :
  validate config = Ok c →
  let server := Config.Server config in
  let server' := Config.Server c in
  let sts := ConfigServer.STS server in
  let sts' := ConfigServer.STS server' in
  let throttle := ConfigServer.ConnectionThrottle server in
  let throttle' := ConfigServer.ConnectionThrottle server' in
  (Config.NetworkName c = Config.NetworkName config ∧
   Config.IPCloaking c = Config.IPCloaking config ∧
   Config.DatastorePath c = Config.DatastorePath config ∧
   Config.OperClasses c = Config.OperClasses config ∧
   Config.Opers c = Config.Opers config ∧
   Config.Limits c = Config.Limits config) ∧
  (ConfigServer.Password server' = ConfigServer.Password server ∧
   ConfigServer.Name server' = ConfigServer.Name server ∧
   ConfigServer.Listen server' = ConfigServer.Listen server ∧
   ConfigServer.Wslisten server' = ConfigServer.Wslisten server ∧
   ConfigServer.TLSListeners server' = ConfigServer.TLSListeners server ∧
   ConfigServer.CheckIdent server' = ConfigServer.CheckIdent server ∧
   ConfigServer.MOTD server' = ConfigServer.MOTD server ∧
   ConfigServer.MaxSendQString server' = ConfigServer.MaxSendQString server) ∧
  ((ConfigServer.Password server ≠ "" →
    PassConfig.Password (ConfigServer.PassConfig server')
    = ConfigServer.Password server) ∧
   (ConfigServer.Password server = "" →
    ConfigServer.PassConfig server' = ConfigServer.PassConfig server)) ∧
  (STSConfig.withDuration (STSConfig.Duration sts) sts' = sts ∧
   (STSConfig.Enabled sts = false → sts' = sts)) ∧
  (ConnectionThrottleConfig.withBanDuration
     (ConnectionThrottleConfig.BanDuration throttle)
     (ConnectionThrottleConfig.withDuration
        (ConnectionThrottleConfig.Duration throttle) throttle') = throttle ∧
   (ConnectionThrottleConfig.Enabled throttle = false →
    throttle' = throttle)).
Proof.
  intros Hc. destruct_config config.
  validate_cases Hc out Hlog; cbn.
  all: split_and!; try done; try congruence.
  all: try (by intros ?; subst).
Qed.

(** X20: in a returned configuration the computed fields hold what their
    strings denote: the durations of an enabled STS or throttle section are
    the parsed duration strings, the send-queue size is the parsed size
    string, and the logging directives are the normalized directives of the
    document, each with at least one included type and, with the file
    method, a filename. *)
Theorem validateConfig_computed config c :
  validate config = Ok c →
  let sts := ConfigServer.STS (Config.Server c) in
  let throttle := ConfigServer.ConnectionThrottle (Config.Server c) in
  (STSConfig.Enabled sts = true →
   custime_ParseDuration (STSConfig.DurationString sts)
     = inl (STSConfig.Duration sts) ∧
   (0 ≤ STSConfig.Port sts ≤ 65535)%Z) ∧
  (ConnectionThrottleConfig.Enabled throttle = true →
   time_ParseDuration (ConnectionThrottleConfig.DurationString throttle)
     = inl (ConnectionThrottleConfig.Duration throttle) ∧
   time_ParseDuration (ConnectionThrottleConfig.BanDurationString throttle)
     = inl (ConnectionThrottleConfig.BanDuration throttle)) ∧
  bytefmt_ToBytes (ConfigServer.MaxSendQString (Config.Server c))
    = inl (ConfigServer.MaxSendQBytes (Config.Server c)) ∧
  normalizeLogging ToLower LogLevelNames (Config.Logging config)
    = Ok (Config.Logging c) ∧
  Forall (λ logConfig,
            LoggingConfig.Types logConfig ≠ [] ∧
            (LoggingConfig.MethodFile logConfig = true →
             LoggingConfig.Filename logConfig ≠ ""))
    (Config.Logging c).
Proof.
  intros Hc.
  assert (Hsinks : ∀ lg out,
    normalizeLogging ToLower LogLevelNames lg = Ok out →
    Forall (λ logConfig,
              LoggingConfig.Types logConfig ≠ [] ∧
              (LoggingConfig.MethodFile logConfig = true →
               LoggingConfig.Filename logConfig ≠ "")) out).
  { intros lg out Hout%normalizeLogging_Ok_iff.
    induction Hout as [|lc lc' lg out Hlc _ IH]; constructor; [|done].
    by eapply normalizeLogConfig_Ok_sinks. }
  destruct_config config.
  validate_cases Hc out Hlog; cbn.
  all: split_and!; try done; try (by eapply Hsinks).
  all: try (intros _; split; [done|lia]).
  all: try (by intros _).
  all: intros; congruence.
Qed.

Abbreviation required := (requiredFields cloakConfig IsHostname).

(** X21: [LoadConfig] returns the error of reading the file and the error
    of parsing the document as they are; it panics exactly when the
    document is parsed without error and leaves the configuration pointer
    nil; it never ends the process; and a configuration that it returns
    comes from a parsed document that is accepted. *)
Theorem LoadConfig_outcomes filename :
  let load :=
    LoadConfig cloakConfig IP ReadFile Unmarshal IsHostname
      custime_ParseDuration time_ParseDuration ParseIP cloak_Enabled
      cloak_IPv4 bytefmt_ToBytes ToLower LogLevelNames in
  ((∀ err, ReadFile filename = inr err → load filename = Err err) ∧
   (∀ data err, ReadFile filename = inl data → Unmarshal data = inr err →
      load filename = Err err) ∧
   (load filename = Panic ↔
    ∃ data, ReadFile filename = inl data ∧ Unmarshal data = inl None) ∧
   load filename ≠ Fatal ∧
   (∀ c, load filename = Ok c →
      ∃ data config,
        ReadFile filename = inl data ∧ Unmarshal data = inl (Some config) ∧
        accepted' config ∧ validate config = Ok c)).
Proof.
  cbn zeta. unfold LoadConfig.
  destruct (ReadFile filename) as [data|err].
  2: { split_and!; try done; try (intros; simplify_eq; congruence).
       split; [done|]. by intros (? & ? & _). }
  destruct (Unmarshal data) as [[config|]|err] eqn:Hu.
  - destruct (validateConfig_returns config) as [Hp Hf].
    split_and!; try done; try (intros; simplify_eq; congruence).
    + split; [done|]. intros (data' & [= <-] & ?). congruence.
    + intros c Hc. exists data, config. split_and!; try done.
      by eapply validateConfig_accepted.
  - split_and!; try done; try (intros; simplify_eq; congruence).
    split; [|done]. intros _. by exists data.
  - split_and!; try done; try (intros; simplify_eq; congruence).
    split; [done|]. intros (data' & [= <-] & ?). congruence.
Qed.

(** X22: the checks are made in the order of the source and the first one
    that fails gives the error: an empty network name, an empty server
    name, a server name that is not a hostname, an empty datastore path, no
    listening address, a length limit below its minimum; then, with STS
    enabled, a duration that does not parse, whose error is appended to the
    message, and a port below 0 or above 65535, which the message shows in
    decimal. *)
Theorem validateConfig_first_error config :
  let server := Config.Server config in
  let sts := ConfigServer.STS server in
  ((Config.NetworkName config = "" → validate config = Err errNetworkName) ∧
   (Config.NetworkName config ≠ "" → ConfigServer.Name server = "" →
    validate config = Err errServerName) ∧
   (Config.NetworkName config ≠ "" → ConfigServer.Name server ≠ "" →
    IsHostname (ConfigServer.Name server) = false →
    validate config = Err errHostname) ∧
   (Config.NetworkName config ≠ "" → ConfigServer.Name server ≠ "" →
    IsHostname (ConfigServer.Name server) = true →
    Config.DatastorePath config = "" →
    validate config = Err errDatastore) ∧
   (Config.NetworkName config ≠ "" → ConfigServer.Name server ≠ "" →
    IsHostname (ConfigServer.Name server) = true →
    Config.DatastorePath config ≠ "" → ConfigServer.Listen server = [] →
    validate config = Err errListen) ∧
   (Config.NetworkName config ≠ "" → ConfigServer.Name server ≠ "" →
    IsHostname (ConfigServer.Name server) = true →
    Config.DatastorePath config ≠ "" → ConfigServer.Listen server ≠ [] →
    limitsTooLow (Config.Limits config) = true →
    validate config = Err errLimits) ∧
   (required config → STSConfig.Enabled sts = true →
    ∀ err, custime_ParseDuration (STSConfig.DurationString sts) = inr err →
    validate config = Err (errSTSDuration err)) ∧
   (required config → STSConfig.Enabled sts = true →
    ∀ d, custime_ParseDuration (STSConfig.DurationString sts) = inl d →
    (STSConfig.Port sts < 0 ∨ 65535 < STSConfig.Port sts)%Z →
    validate config = Err (errSTSPort (STSConfig.Port sts)))).
Proof.
  destruct_config config. cbn zeta.
  unfold requiredFields, validateConfig, copyPassword, checkSTS,
    checkCloaking, checkThrottle.
  cbn -[normalizeLogging limitsTooLow].
  assert (Hport : ∀ p, (p < 0 ∨ 65535 < p)%Z →
                       Z.ltb p 0 || Z.ltb 65535 p = true).
  { intros p [?|?]; apply orb_true_iff; [left|right]; by apply Z.ltb_lt. }
  destruct (negb (String.eqb pw "")); cbn -[normalizeLogging limitsTooLow].
  all: split_and!.
  all: repeat match goal with
       | |- _ ≠ "" → _ => intros ?%String.eqb_neq
       | |- (_ ∧ _) → _ => intros (?%String.eqb_neq & ?%String.eqb_neq & ?
                                   & ?%String.eqb_neq & ? & ?)
       | |- _ → _ => intros ?
       end.
  all: subst; repeat match goal with
       | H : String.eqb _ _ = false |- _ => rewrite H
       | H : IsHostname _ = _ |- _ => rewrite H
       | H : limitsTooLow _ = _ |- _ => rewrite H
       | H : custime_ParseDuration _ = _ |- _ => rewrite H
       end; cbn -[normalizeLogging limitsTooLow]; try done.
  all: try (destruct li; [done|]; cbn -[normalizeLogging limitsTooLow]).
  all: repeat match goal with
       | H : limitsTooLow _ = _ |- _ => rewrite H
       | H : custime_ParseDuration _ = _ |- _ => rewrite H
       end; cbn -[normalizeLogging limitsTooLow]; try done.
  all: by rewrite Hport.
Qed.

(** X23: when the required fields are present and the STS section is
    valid or disabled, the later checks follow in the order of the source
    and the first one that fails gives the error: with cloaking enabled, a
    cloak of the test address that fails; with throttling enabled, a
    duration and then a ban duration that do not parse; a line length below
    512; the error of the first logging directive that is not normalized,
    as it is; and last a send-queue size that does not parse. The error of
    the failing call is appended to the message. *)
Theorem validateConfig_later_errors config :
  let server := Config.Server config in
  let sts := ConfigServer.STS server in
  let throttle := ConfigServer.ConnectionThrottle server in
  let lineLen := ConfigLimits.LineLen (Config.Limits config) in
  let cloaking := Config.IPCloaking config in
  let stsOk :=
    STSConfig.Enabled sts = true →
    (∃ d, custime_ParseDuration (STSConfig.DurationString sts) = inl d) ∧
    (0 ≤ STSConfig.Port sts ≤ 65535)%Z in
  let cloakOk :=
    cloak_Enabled cloaking = true →
    ∃ cloaked, cloak_IPv4 (ParseIP "8.8.8.8") cloaking = inl cloaked in
  let throttleOk :=
    ConnectionThrottleConfig.Enabled throttle = true →
    (∃ d, time_ParseDuration
            (ConnectionThrottleConfig.DurationString throttle) = inl d) ∧
    (∃ b, time_ParseDuration
            (ConnectionThrottleConfig.BanDurationString throttle) = inl b) in
  let lineOk :=
    (512 ≤ LineLenConfig.Tags lineLen ∧ 512 ≤ LineLenConfig.Rest lineLen)%Z in
  required config → stsOk →
  ((cloak_Enabled cloaking = true →
    ∀ err, cloak_IPv4 (ParseIP "8.8.8.8") cloaking = inr err →
    validate config = Err (errCloaking err)) ∧
   (cloakOk → ConnectionThrottleConfig.Enabled throttle = true →
    ∀ err, time_ParseDuration
             (ConnectionThrottleConfig.DurationString throttle) = inr err →
    validate config = Err (errThrottleDuration err)) ∧
   (cloakOk → ConnectionThrottleConfig.Enabled throttle = true →
    ∀ d err,
      time_ParseDuration
        (ConnectionThrottleConfig.DurationString throttle) = inl d →
      time_ParseDuration
        (ConnectionThrottleConfig.BanDurationString throttle) = inr err →
    validate config = Err (errThrottleBanDuration err)) ∧
   (cloakOk → throttleOk →
    (LineLenConfig.Tags lineLen < 512 ∨ LineLenConfig.Rest lineLen < 512)%Z →
    validate config = Err errLineLen) ∧
   (cloakOk → throttleOk → lineOk →
    ∀ msg, normalizeLogging ToLower LogLevelNames (Config.Logging config)
           = Err msg →
    validate config = Err msg) ∧
   (cloakOk → throttleOk → lineOk →
    ∀ out err,
      normalizeLogging ToLower LogLevelNames (Config.Logging config)
      = Ok out →
      bytefmt_ToBytes (ConfigServer.MaxSendQString server) = inr err →
    validate config = Err (errMaxSendQ err))).
Proof.
  destruct_config config. cbn zeta.
  unfold requiredFields, validateConfig, copyPassword, checkSTS,
    checkCloaking, checkThrottle.
  cbn -[normalizeLogging limitsTooLow].
  intros (Hnn%String.eqb_neq & Hnm%String.eqb_neq & Hhost & Hdp%String.eqb_neq
          & Hli & Hlim) Hsts.
  assert (Hline : ∀ a b, (a < 512 ∨ b < 512)%Z →
                         Z.ltb a 512 || Z.ltb b 512 = true).
  { intros a b [?|?]; apply orb_true_iff; [left|right]; by apply Z.ltb_lt. }
  assert (Hline' : ∀ a b, (512 ≤ a ∧ 512 ≤ b)%Z →
                          Z.ltb a 512 || Z.ltb b 512 = false).
  { intros a b [?%Z.ltb_ge ?%Z.ltb_ge]. by apply orb_false_iff. }
  destruct li as [|l0 li]; [done|]. clear Hli.
  destruct (negb (String.eqb pw "")); cbn -[normalizeLogging limitsTooLow].
  all: rewrite Hnn, Hnm, Hhost, Hdp, Hlim;
    cbn -[normalizeLogging limitsTooLow].
  all: destruct se;
    [destruct (Hsts eq_refl) as [[d0 ->] [Hp1%Z.ltb_ge Hp2%Z.ltb_ge]];
     rewrite Hp1, Hp2|]; cbn -[normalizeLogging limitsTooLow].
  all: clear Hsts; split_and!; intros.
  all: repeat (match goal with
       | H : cloak_Enabled ?c = true → _ |- _ =>
           destruct (cloak_Enabled c) eqn:?;
           [destruct (H eq_refl) as [? ->]|]; clear H
       | H : ?t = true → _ ∧ _ |- _ =>
           is_var t; destruct t;
           [destruct (H eq_refl) as [[? ->] [? ->]]|]; clear H
       | H : cloak_Enabled _ = true |- _ => rewrite H; clear H
       | H : ?t = true |- _ => is_var t; subst t
       | H : cloak_IPv4 _ _ = _ |- _ => rewrite H; clear H
       | H : time_ParseDuration _ = _ |- _ => rewrite H; clear H
       | H : normalizeLogging _ _ _ = _ |- _ => rewrite H; clear H
       | H : bytefmt_ToBytes _ = _ |- _ => rewrite H; clear H
       | H : (_ < 512 ∨ _ < 512)%Z |- _ => rewrite (Hline _ _ H); clear H
       | H : (512 ≤ _ ∧ 512 ≤ _)%Z |- _ => rewrite (Hline' _ _ H); clear H
       end; cbn -[normalizeLogging limitsTooLow]); try done.
Qed.

End LoadConfigProofs.

Lemma ex_validateConfig_loaded : ex_validateConfig ex_config = Ok ex_loaded.
Proof. vm_compute. reflexivity. Qed.

Lemma validateConfig_succeeds_iff_witness :
  accepted bool string ex_IsHostname ex_custime_ParseDuration
    ex_time_ParseDuration (λ s, s) (λ b, b) ex_cloak_IPv4 ex_bytefmt_ToBytes
    asciiToLower ex_LogLevelNames ex_config.
Proof.
  apply validateConfig_succeeds_iff.
  exists ex_loaded. exact ex_validateConfig_loaded.
Defined.

Lemma validateConfig_keeps_witness :
  Config.Limits ex_loaded = Config.Limits ex_config ∧
  PassConfig.Password (ConfigServer.PassConfig (Config.Server ex_loaded))
  = "JDJh" ∧
  ConfigServer.ConnectionThrottle (Config.Server ex_loaded)
  = ConfigServer.ConnectionThrottle (Config.Server ex_config).
Proof.
  destruct (validateConfig_keeps _ _ _ _ _ _ _ _ _ _ _
              ex_validateConfig_loaded)
    as ((_ & _ & _ & _ & _ & Hlimits) & _ & (Hpass & _) & _ & (_ & Hthrottle)).
  split_and!; [exact Hlimits|by apply Hpass|by apply Hthrottle].
Defined.

Lemma validateConfig_computed_witness :
  ex_custime_ParseDuration "1mo"
  = inl (STSConfig.Duration (ConfigServer.STS (Config.Server ex_loaded))).
Proof.
  destruct (validateConfig_computed _ _ _ _ _ _ _ _ _ _ _
              ex_validateConfig_loaded) as (Hsts & _).
  by destruct (Hsts eq_refl).
Defined.

Lemma LoadConfig_outcomes_witness :
  ex_LoadConfig "ircd.conf" = Err "open: no such file or directory".
Proof.
  eapply (proj1 (LoadConfig_outcomes _ _ _ _ _ _ _ _ _ _ _ _)).
  reflexivity.
Defined.

Lemma validateConfig_first_error_witness :
  ex_validateConfig ex_config_unnamed = Err errNetworkName.
Proof.
  eapply (proj1 (validateConfig_first_error _ _ _ _ _ _ _ _ _ _)).
  reflexivity.
Defined.

Lemma validateConfig_later_errors_witness :
  ex_validateConfig ex_config_throttled
  = Err (errThrottleDuration "time: invalid duration").
Proof.
  assert (Hreq : requiredFields bool ex_IsHostname ex_config_throttled).
  { by split_and!. }
  assert (Hsts :
    STSConfig.Enabled (ConfigServer.STS (Config.Server ex_config_throttled))
      = true →
    (∃ d, ex_custime_ParseDuration "1mo" = inl d) ∧ (0 ≤ 6697 ≤ 65535)%Z).
  { intros _. split; [by eexists|lia]. }
  destruct (validateConfig_later_errors ex_IsHostname
              ex_custime_ParseDuration ex_time_ParseDuration (λ s, s)
              (λ b, b) ex_cloak_IPv4 ex_bytefmt_ToBytes asciiToLower
              ex_LogLevelNames ex_config_throttled Hreq Hsts)
    as (_ & Hthrottle & _).
  apply Hthrottle; [by intros [=]|reflexivity|reflexivity].
Defined.
